(** * scrape-cli: selector classification, text normalisation and the
      extraction pipeline of [scrape_cli/scrape.py], embedded in Rocq.

    Python [str] values are sequences of Unicode code points; they are
    modelled as lists of code points ([N]).  Byte strings are lists of
    [Byte.byte].  The regular expressions of the program all lie in the
    fragment "sequence of one-character atoms, each possibly under a greedy
    quantifier"; the backtracking matcher of that fragment is modelled with
    the priority order of Python's [re] module. *)

From Stdlib Require Import List Arith NArith Bool Lia.
From Stdlib.Strings Require Import String Ascii Byte.
Import ListNotations.
Import Datatypes.

(** ** Strings *)

Module Str.

Definition cp := N.
Definition str := list cp.

Definition of_string (s : string) : str :=
  map N_of_ascii (list_ascii_of_string s).

Definition NL : cp := 10%N.
Definition SP : cp := 32%N.

Definition is_nl (c : cp) : bool := N.eqb c NL.
Definition is_sp (c : cp) : bool := N.eqb c SP.

(** [str.isspace] on one code point, which is also what [\s] matches in a
    [str] pattern and what [str.strip()] removes (CPython's
    [Py_UNICODE_ISSPACE]). *)
Definition isspace (c : cp) : bool :=
  ((9 <=? c) && (c <=? 13) || (28 <=? c) && (c <=? 32) ||
   (c =? 133) || (c =? 160) || (c =? 5760) ||
   (8192 <=? c) && (c <=? 8202) || (c =? 8232) || (c =? 8233) ||
   (c =? 8239) || (c =? 8287) || (c =? 12288))%N.

Definition eqb (a b : str) : bool :=
  if list_eq_dec N.eq_dec a b then true else false.

(** [s.lstrip()], then [s.strip()] as [lstrip] at both ends. *)
Fixpoint lstrip (s : str) : str :=
  match s with
  | c :: s' => if isspace c then lstrip s' else s
  | [] => []
  end.

Definition rstrip (s : str) : str := rev (lstrip (rev s)).

Definition strip (s : str) : str := rstrip (lstrip s).

(** [s.split('\n')]: never empty, one more piece than there are newlines. *)
Fixpoint split_nl (s : str) : list str :=
  match s with
  | [] => [[]]
  | c :: s' =>
      if is_nl c then [] :: split_nl s'
      else match split_nl s' with
           | l :: ls => (c :: l) :: ls
           | [] => [[c]]
           end
  end.

(** [sep.join(parts)]. *)
Fixpoint join (sep : str) (parts : list str) : str :=
  match parts with
  | [] => []
  | [p] => p
  | p :: ps => p ++ sep ++ join sep ps
  end.

Definition join_nl := join [NL].

(** [needle in s]. *)
Fixpoint starts_with (needle s : str) : bool :=
  match needle, s with
  | [], _ => true
  | a :: n', b :: s' => N.eqb a b && starts_with n' s'
  | _ :: _, [] => false
  end.

Fixpoint contains (needle s : str) : bool :=
  starts_with needle s ||
  match s with
  | [] => false
  | _ :: s' => contains needle s'
  end.

End Str.
Import Str.

(** ** The regular-expression fragment *)

Module Re.

(** One atom of a pattern: a one-character test, alone or under a greedy
    quantifier [{lo,hi}] ([hi = None] is "no upper bound"). *)
Inductive atom :=
| One (p : cp -> bool)
| Rep (p : cp -> bool) (lo : nat) (hi : option nat).

Definition pattern := list atom.

Definition more (hi : option nat) : bool :=
  match hi with Some 0 => false | _ => true end.

Definition dec (hi : option nat) : option nat := option_map pred hi.

(** Greedy repetition followed by the rest of the pattern [K]: one more
    character is tried first, stopping here is the fallback.  The result is
    the number of characters the repetition took and what [K] returned. *)
Fixpoint rep (p : cp -> bool) (K : str -> option (list nat))
    (s : str) (lo : nat) (hi : option nat) {struct s}
  : option (nat * list nat) :=
  let stop :=
    match lo with
    | 0 => option_map (pair 0) (K s)
    | S _ => None
    end in
  match s with
  | c :: s' =>
      if p c && more hi then
        match rep p K s' (pred lo) (dec hi) with
        | Some (k, r) => Some (S k, r)
        | None => stop
        end
      else stop
  | [] => stop
  end.

(** Match the pattern at the start of [s]; the result lists how many
    characters each atom took, in the order of the atoms. *)
Fixpoint match_here (pat : pattern) (s : str) {struct pat}
  : option (list nat) :=
  match pat with
  | [] => Some []
  | One p :: pat' =>
      match s with
      | c :: s' =>
          if p c then option_map (cons 1) (match_here pat' s') else None
      | [] => None
      end
  | Rep p lo hi :: pat' =>
      option_map (fun kr => fst kr :: snd kr)
                 (rep p (match_here pat') s lo hi)
  end.

Definition match_len (pat : pattern) (s : str) : option nat :=
  option_map (fun l => list_sum l) (match_here pat s).

(** [re.search]: the leftmost position where the pattern matches, with the
    lengths taken by the atoms there. *)
Fixpoint search_from (pat : pattern) (pos : nat) (s : str)
  : option (nat * list nat) :=
  match match_here pat s with
  | Some segs => Some (pos, segs)
  | None =>
      match s with
      | [] => None
      | _ :: s' => search_from pat (S pos) s'
      end
  end.

Definition search (pat : pattern) (s : str) : option (nat * list nat) :=
  search_from pat 0 s.

(** A pattern that begins with [^] can only match at position 0. *)
Definition search_anchored (pat : pattern) (s : str)
  : option (nat * list nat) :=
  option_map (pair 0) (match_here pat s).

(** [re.sub(pat, repl, s)] for a replacement without group references:
    scan from the left; a match is replaced and the scan resumes after it
    ([skip] counts the characters of the match still to pass over); an
    empty match is replaced and the character at that position is kept. *)
Fixpoint sub_from (pat : pattern) (repl : str) (skip : nat) (s : str)
  {struct s} : str :=
  match skip with
  | S k =>
      match s with
      | [] => []
      | _ :: s' => sub_from pat repl k s'
      end
  | 0 =>
      match match_len pat s with
      | Some (S n) =>
          repl ++ match s with
                  | [] => []
                  | _ :: s' => sub_from pat repl n s'
                  end
      | Some 0 =>
          repl ++ match s with
                  | [] => []
                  | c :: s' => c :: sub_from pat repl 0 s'
                  end
      | None =>
          match s with
          | [] => []
          | c :: s' => c :: sub_from pat repl 0 s'
          end
      end
  end.

Definition sub (pat : pattern) (repl s : str) : str := sub_from pat repl 0 s.

Definition chr (c : cp) : atom := One (N.eqb c).
Definition lit (s : string) : pattern := map chr (of_string s).
Definition star (p : cp -> bool) : atom := Rep p 0 None.
Definition plus (p : cp -> bool) : atom := Rep p 1 None.
Definition opt (p : cp -> bool) : atom := Rep p 0 (Some 1).
Definition not_chr (c : cp) : cp -> bool := fun x => negb (N.eqb c x).

End Re.
Import Re.

(** ** [clean_text] *)

(** [r' +'] *)
Definition re_spaces : pattern := [plus is_sp].
(** [r'\n{3,}'] *)
Definition re_newlines3 : pattern := [Rep is_nl 3 None].
(** [r'\n\s*\n\s*\n+'] *)
Definition re_blank_lines : pattern :=
  [One is_nl; star isspace; One is_nl; star isspace; plus is_nl].

Definition strip_lines (text : str) : str :=
  join_nl (map strip (split_nl text)).

Definition clean_text (text : str) : str :=
  let text := sub re_spaces [SP] text in
  let text := sub re_newlines3 [NL; NL] text in
  let text := sub re_blank_lines [NL; NL] text in
  let text := strip_lines text in
  strip text.

(** ** [is_xpath] *)

Definition LPAR : cp := 40%N.
Definition RPAR : cp := 41%N.
Definition LBRA : cp := 91%N.
Definition RBRA : cp := 93%N.

(** The entries of [xpath_patterns], in the order of the source; the flag
    says whether the pattern begins with [^]. *)
Definition xpath_patterns : list (bool * pattern) :=
  [ (true,  lit "/");
    (false, lit "::");
    (false, [chr LPAR; star (not_chr RPAR); chr RPAR]);
    (false, [chr LBRA; star (not_chr RBRA); chr RBRA]);
    (false, lit "last()");
    (false, lit "position()");
    (false, lit "contains(");
    (false, lit "text()");
    (false, lit "@") ].

Definition re_search (ap : bool * pattern) (s : str) : bool :=
  match (if fst ap then search_anchored (snd ap) s else search (snd ap) s) with
  | Some _ => true
  | None => false
  end.

Definition is_xpath (expression : str) : bool :=
  existsb (fun ap => re_search ap expression) xpath_patterns.

Inductive kind := XPath | CSS.

Definition classify (expression : str) : kind :=
  if is_xpath expression then XPath else CSS.

(** ** Exceptions, process state and the process monad *)

(** The exception classes the program names in a handler, and the ones its
    collaborators raise past those handlers.  Each constructor stands for
    the class with its subclasses, except for subclasses that have a
    constructor of their own ([UnicodeError] here is a [UnicodeError] that
    is neither a decode nor an encode error). *)
Inductive exn_class :=
| UnicodeDecodeError
| UnicodeEncodeError
| UnicodeError
| LookupError
| XMLSyntaxError
| FileNotFoundError
| RequestException
| OtherException.

Definition exn_class_eqb (a b : exn_class) : bool :=
  match a, b with
  | UnicodeDecodeError, UnicodeDecodeError
  | UnicodeEncodeError, UnicodeEncodeError
  | UnicodeError, UnicodeError
  | LookupError, LookupError
  | XMLSyntaxError, XMLSyntaxError
  | FileNotFoundError, FileNotFoundError
  | RequestException, RequestException
  | OtherException, OtherException => true
  | _, _ => false
  end.

(** An exception: its class and [str(e)]. *)
Record exn := Exn { exn_cls : exn_class; exn_text : str }.

(** [except (C1, C2, ...)] *)
Definition caught_by (handled : list exn_class) (e : exn) : bool :=
  existsb (exn_class_eqb (exn_cls e)) handled.

(** What [sys.exit] was given: an integer, or a message (written to the
    error stream, status 1). *)
Inductive status :=
| Code (n : nat)
| Message (m : str).

(** What the process did: its calls to the collaborators. *)
Inductive event :=
| EvParseArgs
| EvHttpGet (url : str)
| EvOpenFile (path : str)
| EvReadStdin
| EvCssToXPath (css : str)
| EvRecode (charset : str)
| EvParse (raw : bool)
| EvXPath (expression : str).

Record world := World {
  out : list str;      (* the writes to standard output, in order *)
  log : list event     (* the calls to collaborators, in order *)
}.

Definition world0 : world := World [] [].

Inductive outcome (A : Type) :=
| Ret (a : A)
| Exit (st : status)
| Raise (e : exn).
Arguments Ret {A} a.
Arguments Exit {A} st.
Arguments Raise {A} e.

Definition M (A : Type) : Type := world -> outcome A * world.

Definition ret {A} (a : A) : M A := fun w => (Ret a, w).

Definition bind {A B} (m : M A) (k : A -> M B) : M B :=
  fun w =>
    match m w with
    | (Ret a, w') => k a w'
    | (Exit st, w') => (Exit st, w')
    | (Raise e, w') => (Raise e, w')
    end.

Notation "x <- m ;; k" := (bind m (fun x => k))
  (at level 61, m at next level, right associativity).
Notation "m ;;; k" := (bind m (fun _ => k))
  (at level 61, right associativity).

(** [sys.exit(st)] *)
Definition sys_exit {A} (st : status) : M A := fun w => (Exit st, w).

Definition raise {A} (e : exn) : M A := fun w => (Raise e, w).

(** [sys.stdout.write(s)], on a standard output that accepts the write:
    a write that fails (a closed pipe, an encoding the stream rejects) is
    outside the model. *)
Definition write (s : str) : M unit :=
  fun w => (Ret tt, World (out w ++ [s]) (log w)).

(** [print(s)] *)
Definition print (s : str) : M unit := write (s ++ [NL]).

Definition emit (ev : event) : M unit :=
  fun w => (Ret tt, World (out w) (log w ++ [ev])).

(** A call to a collaborator that returns or raises. *)
Definition call {A} (ev : event) (r : exn + A) : M A :=
  emit ev ;;;
  match r with
  | inr a => ret a
  | inl e => raise e
  end.

(** [try: m  except handled as e: h e] *)
Definition try_except {A} (m : M A) (handled : list exn_class)
    (h : exn -> M A) : M A :=
  fun w =>
    match m w with
    | (Raise e, w') => if caught_by handled e then h e w' else (Raise e, w')
    | r => r
    end.

(** [try: m  except Exception as e: h e] *)
Definition try_except_all {A} (m : M A) (h : exn -> M A) : M A :=
  fun w =>
    match m w with
    | (Raise e, w') => h e w'
    | r => r
    end.

Fixpoint for_each {A} (xs : list A) (body : A -> M unit) : M unit :=
  match xs with
  | [] => ret tt
  | x :: xs' => body x ;;; for_each xs' body
  end.

Fixpoint map_m {A B} (f : A -> M B) (xs : list A) : M (list B) :=
  match xs with
  | [] => ret []
  | x :: xs' => y <- f x ;; ys <- map_m f xs' ;; ret (y :: ys)
  end.

(** The status the process ends with: [exit(main())] with [main] returning
    [None] is 0; an uncaught exception ends the interpreter with 1. *)
Definition exit_code {A} (o : outcome A) : nat :=
  match o with
  | Ret _ => 0
  | Exit (Code n) => n
  | Exit (Message _) => 1
  | Raise _ => 1
  end.

(** ** Command line and collaborators *)

Definition bytes := list byte.

(** The namespace [parser.parse_args()] returns. *)
Record Args := MkArgs {
  html : str;
  argument : str;
  body : bool;
  text : bool;
  expression : list str;
  check_existence : bool;
  rawinput : bool
}.

Inductive parsed :=
| Parsed (a : Args)
| ParserExit (printed : list str) (code : nat).

(** One match of an XPath evaluation: a string (text node, attribute value,
    string result) or a node.  The model covers evaluations whose matches
    are of these two kinds; lxml can also return other objects (the pairs
    of the namespace axis), on which the node operations of the program
    raise. *)
Inductive item (Node : Type) :=
| IStr (s : str)
| INode (n : Node).
Arguments IStr {Node} s.
Arguments INode {Node} n.

(** The libraries the program calls (argparse, requests, the file system,
    cssselect, the codecs, lxml).  They are not part of the repository:
    the program is modelled over any behaviour of theirs. *)
Record Env := MkEnv {
  Doc : Type;
  Node : Type;
  (* [parser.parse_args()] on [sys.argv]; [--version], [--help] and usage
     errors leave through the parser *)
  env_parse_args : list str -> parsed;
  (* what [parser.print_help()] writes *)
  env_help : str;
  (* [requests.get(url)], [raise_for_status()], [.content] *)
  env_http_get : str -> exn + bytes;
  (* [open(path, 'rb').read()] *)
  env_open_read : str -> exn + bytes;
  (* [sys.stdin.buffer.read()] *)
  env_stdin : exn + bytes;
  (* [GenericTranslator().css_to_xpath(css)] *)
  env_css_to_xpath : str -> exn + str;
  (* [inp.decode(charset).encode('utf-8')] *)
  env_recode : str -> bytes -> exn + bytes;
  (* [etree.fromstring(inp)] when the flag is set,
     [etree.fromstring(inp, html_parser)] otherwise *)
  env_fromstring : bool -> bytes -> exn + Doc;
  (* [list(document.xpath(e))] *)
  env_xpath : Doc -> str -> exn + list (item Node);
  (* [hasattr(el, 'text_content')], [el.text_content()],
     [el.itertext()], [etree.tostring(el, pretty_print=True).decode('utf-8')],
     [el.get(name)] *)
  env_has_text_content : Node -> bool;
  env_text_content : Node -> str;
  env_itertext : Node -> list str;
  env_tostring : Node -> str;
  env_get : Node -> str -> option str
}.

(** ** The program *)

Definition is_empty {A} (l : list A) : bool :=
  match l with [] => true | _ => false end.

Definition between (lo hi c : cp) : bool := (N.leb lo c && N.leb c hi).

(** [bytes.decode('ascii', errors='ignore')] *)
Definition decode_ascii_ignore (b : bytes) : str :=
  filter (fun c => N.ltb c 128%N) (map Byte.to_N b).

(** [str.lower()] on a string of ASCII characters. *)
Definition lower (s : str) : str :=
  map (fun c => if between 65%N 90%N c then (c + 32)%N else c) s.

(** [\w] on an ASCII character, and the class [[\w-]]. *)
Definition is_word (c : cp) : bool :=
  between 48%N 57%N c || between 65%N 90%N c || between 97%N 122%N c
  || N.eqb c 95%N.

Definition is_word_or_dash (c : cp) : bool := is_word c || N.eqb c 45%N.

Definition is_quote (c : cp) : bool := N.eqb c 34%N || N.eqb c 39%N.

(** The pattern of [detect_charset]: [<meta], one or more characters
    other than [>], [charset=], an optional double or single quote, and
    the group [([\w-]+)]. *)
Definition re_meta_charset : pattern :=
  lit "<meta" ++ [plus (not_chr 62%N)] ++ lit "charset=" ++
  [opt is_quote; plus is_word_or_dash].

(** [m.group(1)] for a pattern whose last atom is the group. *)
Definition last_group (s : str) (m : nat * list nat) : str :=
  let start := fst m + list_sum (removelast (snd m)) in
  firstn (last (snd m) 0) (skipn start s).

Definition detect_charset (html_bytes : bytes) : option str :=
  let head := lower (decode_ascii_ignore (firstn 1024 html_bytes)) in
  match search re_meta_charset head with
  | Some m => Some (last_group head m)
  | None => None
  end.

(** [inp.decode('iso-8859-1').encode('utf-8')]: total on bytes. *)
Definition byte_of_N (n : N) : byte :=
  match Byte.of_N n with Some b => b | None => x00 end.

Definition latin1_to_utf8 (b : bytes) : bytes :=
  flat_map (fun x =>
    let n := Byte.to_N x in
    if N.ltb n 128%N then [x]
    else [byte_of_N (192 + N.shiftr n 6)%N; byte_of_N (128 + N.land n 63)%N]) b.

Definition default_expression : str :=
  of_string "//body//text()[not(ancestor::script) and not(ancestor::style)]".

Definition eb_advice : str :=
  of_string "Error: The correct order is -be (body first, then expression). Please use -be instead of -eb.".

Definition no_expression_advice : str :=
  of_string "Error: you must provide at least one XPath query or CSS3 selector using the -e option, or use -t to extract text.".

Definition body_open : str :=
  of_string "<!DOCTYPE html>" ++ [NL] ++ of_string "<html>" ++ [NL] ++
  of_string "<body>" ++ [NL].

Definition body_close : str :=
  of_string "</body>" ++ [NL] ++ of_string "</html>" ++ [NL].

Section Program.

Variable E : Env.

Definition convert_css_to_xpath (expression : str) : M str :=
  try_except_all
    (call (EvCssToXPath expression) (env_css_to_xpath E expression))
    (fun e =>
       print (of_string "Error converting CSS selector to XPath: "
              ++ exn_text e) ;;;
       sys_exit (Code 1)).

Definition parse_args (argv : list str) : M Args :=
  emit EvParseArgs ;;;
  match env_parse_args E argv with
  | Parsed a => ret a
  | ParserExit printed code => for_each printed write ;;; sys_exit (Code code)
  end.

(** Lines 121-148: the input is a URL, a file or standard input. *)
Definition read_input (args : Args) : M bytes :=
  if negb (is_empty (html args)) then
    if starts_with (of_string "http://") (html args)
       || starts_with (of_string "https://") (html args) then
      try_except
        (call (EvHttpGet (html args)) (env_http_get E (html args)))
        [RequestException]
        (fun e =>
           print (of_string "Error downloading HTML: " ++ exn_text e) ;;;
           sys_exit (Code 1))
    else
      try_except
        (call (EvOpenFile (html args)) (env_open_read E (html args)))
        [FileNotFoundError]
        (fun _ =>
           print (of_string "Error: The file '" ++ html args
                  ++ of_string "' was not found.") ;;;
           sys_exit (Code 1))
  else
    try_except_all
      (inp <- call EvReadStdin (env_stdin E) ;;
       if is_empty inp then
         print (of_string "Error: No input received from stdin") ;;;
         sys_exit (Code 1)
       else ret inp)
      (fun e =>
         print (of_string "Error reading input: " ++ exn_text e) ;;;
         sys_exit (Code 1)).

(** Lines 155-160: the expressions to evaluate, all of them XPath. *)
Definition to_xpath (args : Args) : M (list str) :=
  if text args && is_empty (expression args) then ret [default_expression]
  else
    map_m (fun e => if is_xpath e then ret e else convert_css_to_xpath e)
          (expression args).

(** Lines 180-186: the declared charset, tried on the whole input. *)
Definition apply_charset (inp : bytes) : M bytes :=
  match detect_charset inp with
  | Some charset =>
      if negb (is_empty charset) then
        try_except
          (call (EvRecode charset) (env_recode E charset inp))
          [UnicodeDecodeError; LookupError]
          (fun _ => ret inp)
      else ret inp
  | None => ret inp
  end.

(** Lines 178-204: from the bytes to the document. *)
Definition load (args : Args) (inp : bytes) : M (Doc E) :=
  try_except
    (inp <- apply_charset inp ;;
     try_except
       (call (EvParse (rawinput args)) (env_fromstring E (rawinput args) inp))
       [UnicodeDecodeError]
       (fun _ =>
          let inp := latin1_to_utf8 inp in
          call (EvParse (rawinput args))
               (env_fromstring E (rawinput args) inp)))
    [XMLSyntaxError; UnicodeDecodeError]
    (fun e =>
       print (of_string "Error parsing HTML: " ++ exn_text e) ;;;
       sys_exit (Code 1)).

(** Lines 217-236: the text of one match, [None] when there is none. *)
Definition render (args : Args) (el : item (Node E)) : option str :=
  match el with
  | IStr s => Some (if text args then clean_text s else s)
  | INode n =>
      if text args then
        Some (clean_text
                (if env_has_text_content E n then env_text_content E n
                 else List.concat (env_itertext E n)))
      else if is_empty (argument args) then Some (env_tostring E n)
      else env_get E n (argument args)
  end.

(** Lines 216-238: the body of [for el in els], on the list [results]. *)
Definition collect_one (args : Args) (results : list str)
    (el : item (Node E)) : list str :=
  match render args el with
  | Some t => results ++ [strip t]
  | None => results
  end.

Definition collect (args : Args) (els : list (item (Node E)))
    (results : list str) : list str :=
  fold_left (collect_one args) els results.

(** Lines 208-238: [for e in expression], on the list [results]. *)
Fixpoint extract_from (args : Args) (document : Doc E)
    (expressions : list str) (results : list str) : M (list str) :=
  match expressions with
  | [] => ret results
  | e :: es =>
      els <- call (EvXPath e) (env_xpath E document e) ;;
      (if check_existence args then
         sys_exit (Code (if Nat.eqb (length els) 0 then 1 else 0))
       else ret tt) ;;;
      extract_from args document es (collect args els results)
  end.

Definition extract (args : Args) (document : Doc E)
    (expressions : list str) : M (list str) :=
  extract_from args document expressions [].

(** Lines 240-244. *)
Definition finalize (args : Args) (results : list str) : list str :=
  if text args && negb (is_empty results) then
    let final_text := clean_text (join_nl results) in
    if negb (is_empty final_text) then [final_text] else []
  else results.

(** Lines 246-257. *)
Definition output (args : Args) (results : list str) : M unit :=
  if body args && negb (text args) then
    write body_open ;;;
    for_each results (fun result => write (result ++ [NL])) ;;;
    write body_close
  else
    for_each results (fun result => write (result ++ [NL])).

(** Lines 114-160: from the command line to the arguments, the input
    bytes and the XPath expressions. *)
Definition prepare (argv : list str) : M (Args * bytes * list str) :=
  args <- parse_args argv ;;
  (if is_empty (expression args) && negb (text args) then
     write (env_help E) ;;; sys_exit (Message no_expression_advice)
   else ret tt) ;;;
  inp <- read_input args ;;
  (if is_empty inp then
     print (of_string "Error: Input is empty or invalid") ;;;
     sys_exit (Code 1)
   else ret tt) ;;;
  expressions <- to_xpath args ;;
  ret (args, inp, expressions).

(** Lines 206-257: evaluate and print. *)
Definition report (args : Args) (document : Doc E)
    (expressions : list str) : M unit :=
  results <- extract args document expressions ;;
  output args (finalize args results).

(** Lines 162-257: parse, evaluate, print. *)
Definition process (job : Args * bytes * list str) : M unit :=
  let '(args, inp, expressions) := job in
  document <- load args inp ;;
  report args document expressions.

Definition main (argv : list str) : M unit :=
  if contains (of_string "-eb") (join [SP] argv) then
    sys_exit (Message eb_advice)
  else
    job <- prepare argv ;;
    process job.

End Program.

(** ** A small document model

    Trees with text and element nodes, and an XPath engine for the two
    shapes of expression used in the examples: the default expression of
    text mode and [//tag].  It instantiates the collaborators on concrete
    documents. *)

Module Sample.

Unset Elimination Schemes.
Inductive tree :=
| Text (s : str)
| Element (tag : str) (attrs : list (str * str)) (children : list tree).
Set Elimination Schemes.

Definition tag_is (name : string) (tag : str) : bool :=
  Str.eqb tag (of_string name).

(** The text nodes below a [body] element that have no [script] and no
    [style] ancestor, in document order. *)
Fixpoint visible_text (in_body hidden : bool) (t : tree) : list str :=
  match t with
  | Text s => if in_body && negb hidden then [s] else []
  | Element tag _ children =>
      flat_map (visible_text (in_body || tag_is "body" tag)
                             (hidden || tag_is "script" tag
                                     || tag_is "style" tag))
               children
  end.

(** The elements called [name], the root included, in document order. *)
Fixpoint elements_named (name : str) (t : tree) : list tree :=
  match t with
  | Text _ => []
  | Element tag _ children =>
      (if Str.eqb tag name then [t] else [])
      ++ flat_map (elements_named name) children
  end.

Fixpoint all_text (t : tree) : list str :=
  match t with
  | Text s => [s]
  | Element _ _ children => flat_map all_text children
  end.

Fixpoint lookup (name : str) (attrs : list (str * str)) : option str :=
  match attrs with
  | [] => None
  | (k, v) :: rest => if Str.eqb k name then Some v else lookup name rest
  end.

Definition get (t : tree) (name : str) : option str :=
  match t with
  | Text _ => None
  | Element _ attrs _ => lookup name attrs
  end.

Fixpoint serialize (t : tree) : str :=
  match t with
  | Text s => s
  | Element tag attrs children =>
      of_string "<" ++ tag
      ++ flat_map (fun kv => of_string " " ++ fst kv ++ of_string "='"
                             ++ snd kv ++ of_string "'") attrs
      ++ of_string ">" ++ flat_map serialize children
      ++ of_string "</" ++ tag ++ of_string ">"
  end.

Definition unsupported : exn :=
  Exn OtherException (of_string "unsupported").

Definition xpath (doc : tree) (e : str) : exn + list (item tree) :=
  if Str.eqb e default_expression then
    inr (map IStr (visible_text false false doc))
  else
    match e with
    | 47%N :: 47%N :: name =>
        if negb (is_empty name) && forallb is_word name then
          inr (map INode (elements_named name doc))
        else inl unsupported
    | _ => inl unsupported
    end.

(** The codec table: [undefined] is the codec of that name, which refuses
    every input with a plain [UnicodeError]; [utf-8] and [ascii] accept
    ASCII input as it is; other names are unknown. *)
Definition recode (charset : str) (inp : bytes) : exn + bytes :=
  if Str.eqb charset (of_string "undefined") then
    inl (Exn UnicodeError (of_string "undefined encoding"))
  else if Str.eqb charset (of_string "utf-8")
          || Str.eqb charset (of_string "ascii") then
    if forallb (fun b => N.ltb (Byte.to_N b) 128%N) inp then inr inp
    else inl (Exn UnicodeDecodeError (of_string "invalid byte"))
  else inl (Exn LookupError (of_string "unknown encoding: " ++ charset)).

(** The collaborators of one run: the parser returns [args], standard
    input holds [input] and the HTML parser builds [doc] from it. *)
Definition env (args : Args) (input : bytes) (doc : tree) : Env :=
  {| Doc := tree;
     Node := tree;
     env_parse_args := fun _ => Parsed args;
     env_help := of_string "usage: scrape [-h] [-e EXPRESSION] [HTML]";
     env_http_get := fun _ => inl (Exn RequestException (of_string "offline"));
     env_open_read := fun _ => inl (Exn FileNotFoundError (of_string "no such file"));
     env_stdin := inr input;
     env_css_to_xpath := fun _ => inl unsupported;
     env_recode := recode;
     env_fromstring := fun _ _ => inr doc;
     env_xpath := xpath;
     env_has_text_content := fun _ => true;
     env_text_content := fun t => List.concat (all_text t);
     env_itertext := all_text;
     env_tostring := fun t => serialize t ++ [NL];
     env_get := get |}.

Definition to_bytes (s : string) : bytes :=
  map byte_of_ascii (list_ascii_of_string s).

Definition options (e : list str) : Args :=
  {| html := []; argument := []; body := false; text := false;
     expression := e; check_existence := false; rawinput := false |}.

(** [<html><body><script>x</script><p>Hello  world</p></body></html>] *)
Definition hello_html : bytes :=
  to_bytes "<html><body><script>x</script><p>Hello  world</p></body></html>".

Definition hello_doc : tree :=
  Element (of_string "html") []
    [Element (of_string "body") []
       [Element (of_string "script") [] [Text (of_string "x")];
        Element (of_string "p") [] [Text (of_string "Hello  world")]]].

(** [<html><body><a href='x'>t</a><a href=''>u</a><a>v</a></body></html>] *)
Definition links_doc : tree :=
  Element (of_string "html") []
    [Element (of_string "body") []
       [Element (of_string "a") [(of_string "href", of_string "x")]
          [Text (of_string "t")];
        Element (of_string "a") [(of_string "href", [])]
          [Text (of_string "u")];
        Element (of_string "a") [] [Text (of_string "v")]]].

End Sample.

(** ** A reader for simple HTML and an engine for a fragment of XPath

    The engine parses the text of an expression and evaluates it on a
    [Sample.tree] with the meaning XPath 1.0 gives it.  The fragment:
    absolute paths of steps separated by [/] or [//]; a step is a name,
    [*], [text()] or, last, [@name]; predicates are conjunctions of
    [ancestor::name] and [not(ancestor::name)].  Node sets come out in
    document order, without duplicates. *)

Module Engine.

Import Sample.

Inductive test :=
| TName (name : str)
| TAny
| TText
| TAttr (name : str).

Inductive cond :=
| HasAncestor (name : str)
| NoAncestor (name : str).

Record step := Step { deep : bool; what : test; conds : list cond }.

(** *** Reading an expression *)

Fixpoint span (p : cp -> bool) (s : str) : str * str :=
  match s with
  | c :: s' =>
      if p c then let (a, b) := span p s' in (c :: a, b) else ([], s)
  | [] => ([], [])
  end.

Definition eat (word : string) (s : str) : option str :=
  if starts_with (of_string word) s
  then Some (skipn (length (of_string word)) s)
  else None.

Definition read_name (s : str) : option (str * str) :=
  let (n, rest) := span is_word_or_dash s in
  if is_empty n then None else Some (n, rest).

Definition read_ancestor (s : str) : option (str * str) :=
  match eat "ancestor::" s with
  | Some s1 => read_name s1
  | None => None
  end.

Definition read_cond (s : str) : option (cond * str) :=
  match eat "not(" s with
  | Some s1 =>
      match read_ancestor s1 with
      | Some (n, s2) =>
          match eat ")" s2 with
          | Some s3 => Some (NoAncestor n, s3)
          | None => None
          end
      | None => None
      end
  | None =>
      match read_ancestor s with
      | Some (n, s1) => Some (HasAncestor n, s1)
      | None => None
      end
  end.

(** The conditions of one predicate, after its [[]. *)
Fixpoint read_conds (fuel : nat) (s : str) : option (list cond * str) :=
  match fuel with
  | 0 => None
  | S fuel' =>
      match read_cond s with
      | Some (c, s1) =>
          match eat "]" s1 with
          | Some s2 => Some ([c], s2)
          | None =>
              match eat " and " s1 with
              | Some s2 =>
                  match read_conds fuel' s2 with
                  | Some (cs, s3) => Some (c :: cs, s3)
                  | None => None
                  end
              | None => None
              end
          end
      | None => None
      end
  end.

Fixpoint read_predicates (fuel : nat) (s : str) : option (list cond * str) :=
  match fuel with
  | 0 => None
  | S fuel' =>
      match eat "[" s with
      | Some s1 =>
          match read_conds fuel' s1 with
          | Some (cs, s2) =>
              match read_predicates fuel' s2 with
              | Some (more, s3) => Some (cs ++ more, s3)
              | None => None
              end
          | None => None
          end
      | None => Some ([], s)
      end
  end.

Definition read_test (s : str) : option (test * str) :=
  match eat "text()" s with
  | Some s1 => Some (TText, s1)
  | None =>
      match eat "*" s with
      | Some s1 => Some (TAny, s1)
      | None =>
          match eat "@" s with
          | Some s1 =>
              match read_name s1 with
              | Some (n, s2) => Some (TAttr n, s2)
              | None => None
              end
          | None =>
              match read_name s with
              | Some (n, s1) => Some (TName n, s1)
              | None => None
              end
          end
      end
  end.

Definition read_separator (s : str) : option (bool * str) :=
  match eat "//" s with
  | Some s1 => Some (true, s1)
  | None =>
      match eat "/" s with
      | Some s1 => Some (false, s1)
      | None => None
      end
  end.

Fixpoint read_steps (fuel : nat) (s : str) : option (list step) :=
  match fuel with
  | 0 => None
  | S fuel' =>
      match read_separator s with
      | Some (d, s1) =>
          match read_test s1 with
          | Some (t, s2) =>
              match read_predicates fuel' s2 with
              | Some (cs, s3) =>
                  if is_empty s3 then Some [Step d t cs]
                  else
                    match read_steps fuel' s3 with
                    | Some steps => Some (Step d t cs :: steps)
                    | None => None
                    end
              | None => None
              end
          | None => None
          end
      | None => None
      end
  end.

Definition read (e : str) : option (list step) :=
  read_steps (S (length e)) e.

(** *** Evaluating it *)

(** A node with its place in the document: the child indices from the
    root, and the tags of its ancestors, nearest first. *)
Record place := Place {
  place_path : list nat;
  place_up : list str;
  place_node : tree
}.

Fixpoint number {A} (i : nat) (l : list A) : list (nat * A) :=
  match l with
  | [] => []
  | x :: l' => (i, x) :: number (S i) l'
  end.

Definition children (l : place) : list place :=
  match place_node l with
  | Text _ => []
  | Element tag _ cs =>
      map (fun ic => Place (place_path l ++ [fst ic]) (tag :: place_up l)
                           (snd ic))
          (number 0 cs)
  end.

(** The node and its descendants, in document order. *)
Fixpoint below (path : list nat) (up : list str) (t : tree) {struct t}
  : list place :=
  Place path up t ::
  match t with
  | Text _ => []
  | Element tag _ cs =>
      (fix each (i : nat) (cs : list tree) {struct cs} : list place :=
         match cs with
         | [] => []
         | c :: cs' => below (path ++ [i]) (tag :: up) c ++ each (S i) cs'
         end) 0 cs
  end.

(** Document order on paths: an ancestor comes before its descendants. *)
Fixpoint before (a b : list nat) : comparison :=
  match a, b with
  | [], [] => Eq
  | [], _ :: _ => Lt
  | _ :: _, [] => Gt
  | x :: a', y :: b' =>
      match Nat.compare x y with
      | Eq => before a' b'
      | o => o
      end
  end.

Fixpoint insert (l : place) (ls : list place) : list place :=
  match ls with
  | [] => [l]
  | h :: t =>
      match before (place_path l) (place_path h) with
      | Lt => l :: ls
      | Eq => ls
      | Gt => h :: insert l t
      end
  end.

Definition in_order (ls : list place) : list place :=
  fold_right insert [] ls.

Definition test_ok (t : test) (l : place) : bool :=
  match t, place_node l with
  | TName n, Element tag _ _ => Str.eqb tag n
  | TAny, Element _ _ _ => true
  | TText, Text _ => true
  | _, _ => false
  end.

Definition cond_ok (l : place) (c : cond) : bool :=
  match c with
  | HasAncestor n => existsb (Str.eqb n) (place_up l)
  | NoAncestor n => negb (existsb (Str.eqb n) (place_up l))
  end.

(** The nodes a step starts from: the context, with all its descendants
    after [//]. *)
Definition origin (s : step) (ctx : list place) : list place :=
  if deep s then
    in_order (flat_map (fun l => below (place_path l) (place_up l)
                                       (place_node l)) ctx)
  else ctx.

Definition select (s : step) (ctx : list place) : list place :=
  in_order
    (filter (fun l => test_ok (what s) l && forallb (cond_ok l) (conds s))
            (flat_map children (origin s ctx))).

Definition attribute_values (name : str) (ctx : list place) : list str :=
  flat_map (fun l => match get (place_node l) name with
                     | Some v => [v]
                     | None => []
                     end) ctx.

Definition to_item (l : place) : item tree :=
  match place_node l with
  | Text s => IStr s
  | Element _ _ _ => INode (place_node l)
  end.

Fixpoint follow (steps : list step) (ctx : list place)
  : option (list (item tree)) :=
  match steps with
  | [] => Some (map to_item ctx)
  | s :: rest =>
      match what s with
      | TAttr n =>
          if is_empty rest && is_empty (conds s)
          then Some (map IStr (attribute_values n (origin s ctx)))
          else None
      | _ => follow rest (select s ctx)
      end
  end.

Definition invalid : exn :=
  Exn OtherException (of_string "Invalid expression").

(** The document node: the parent of the root element. *)
Definition document (doc : tree) : place :=
  Place [] [] (Element [] [] [doc]).

Definition eval (doc : tree) (e : str) : exn + list (item tree) :=
  match read e with
  | Some steps =>
      match follow steps [document doc] with
      | Some r => inr r
      | None => inl invalid
      end
  | None => inl invalid
  end.

(** *** Reading a document

    Tags without attributes, properly nested, and text. *)

Inductive token :=
| Open (name : str)
| Close (name : str)
| Chars (s : str).

Definition LT : cp := 60%N.
Definition GT : cp := 62%N.
Definition SLASH : cp := 47%N.

Definition read_tag (s : str) : option (str * str) :=
  match read_name s with
  | Some (n, c :: rest) => if N.eqb c GT then Some (n, rest) else None
  | _ => None
  end.

Fixpoint tokens (fuel : nat) (s : str) : option (list token) :=
  match fuel with
  | 0 => None
  | S fuel' =>
      match s with
      | [] => Some []
      | c :: s' =>
          if N.eqb c LT then
            match s' with
            | d :: s'' =>
                if N.eqb d SLASH then
                  match read_tag s'' with
                  | Some (n, rest) =>
                      option_map (cons (Close n)) (tokens fuel' rest)
                  | None => None
                  end
                else
                  match read_tag s' with
                  | Some (n, rest) =>
                      option_map (cons (Open n)) (tokens fuel' rest)
                  | None => None
                  end
            | [] => None
            end
          else
            let (t, rest) := span (not_chr LT) s in
            option_map (cons (Chars t)) (tokens fuel' rest)
      end
  end.

(** [stack] holds the open elements, innermost first, each with its
    children so far in reverse. *)
Fixpoint build (ts : list token) (stack : list (str * list tree))
  : option tree :=
  match ts with
  | [] => None
  | Open n :: ts' => build ts' ((n, []) :: stack)
  | Chars t :: ts' =>
      match stack with
      | (n, kids) :: outer => build ts' ((n, Text t :: kids) :: outer)
      | [] => None
      end
  | Close n :: ts' =>
      match stack with
      | (m, kids) :: outer =>
          if Str.eqb n m then
            match outer with
            | [] => if is_empty ts' then Some (Element m [] (rev kids))
                    else None
            | (p, siblings) :: outer' =>
                build ts' ((p, Element m [] (rev kids) :: siblings) :: outer')
            end
          else None
      | [] => None
      end
  end.

Definition read_html (inp : bytes) : option tree :=
  match tokens (S (length inp)) (map Byte.to_N inp) with
  | Some ts => build ts []
  | None => None
  end.

Definition not_html : exn :=
  Exn XMLSyntaxError (of_string "Document is not well formed").

(** The collaborators of one run with the reader and the engine: the
    parser returns [args] and standard input holds [input]. *)
Definition env (args : Args) (input : bytes) : Env :=
  {| Doc := tree;
     Node := tree;
     env_parse_args := fun _ => Parsed args;
     env_help := of_string "usage: scrape [-h] [-e EXPRESSION] [HTML]";
     env_http_get := fun _ => inl (Exn RequestException (of_string "offline"));
     env_open_read := fun _ => inl (Exn FileNotFoundError (of_string "no such file"));
     env_stdin := inr input;
     env_css_to_xpath := fun _ => inl unsupported;
     env_recode := recode;
     env_fromstring := fun _ inp => match read_html inp with
                                    | Some doc => inr doc
                                    | None => inl not_html
                                    end;
     env_xpath := eval;
     env_has_text_content := fun _ => true;
     env_text_content := fun t => List.concat (all_text t);
     env_itertext := all_text;
     env_tostring := fun t => serialize t ++ [NL];
     env_get := get |}.

End Engine.

(** ** Vocabulary of the statements

    The predicates and sample inputs the theorems below are stated with. *)

(** The length of the longest prefix of [s] whose characters satisfy
    [p]. *)
Fixpoint run (p : cp -> bool) (s : str) : nat :=
  match s with
  | c :: s' => if p c then S (run p s') else 0
  | [] => 0
  end.

(** The number of newlines in the whitespace that [s] begins with. *)
Fixpoint nlcount (s : str) : nat :=
  match s with
  | c :: s' => if is_nl c then S (nlcount s') else if isspace c then nlcount s' else 0
  | [] => 0
  end.

(** No run of whitespace holds more than two newlines; [cnt] is the
    number of newlines already seen in the current run. *)
Fixpoint run_ok (cnt : nat) (s : str) : bool :=
  match s with
  | [] => true
  | c :: s' =>
      if is_nl c then (cnt <? 2) && run_ok (S cnt) s'
      else if isspace c then run_ok cnt s'
      else run_ok 0 s'
  end.

(** No two adjacent spaces; [prev] says that the character before [s] is
    a space. *)
Fixpoint nodbl (prev : bool) (s : str) : bool :=
  match s with
  | [] => true
  | c :: s' => negb (prev && is_sp c) && nodbl (is_sp c) s'
  end.

(** The blank-line pattern without its first two atoms. *)
Definition blank_tail1 : pattern := [One is_nl; star isspace; plus is_nl].

(** Where a scan of a text is on its line: at the start, after a
    whitespace character other than a newline, or after another
    character. *)
Inductive lstate := AtStart | AfterWs | AfterText.

Definition not_ws (st : lstate) : bool :=
  match st with AfterWs => false | _ => true end.

Definition not_start (st : lstate) : bool :=
  match st with AtStart => false | _ => true end.

(** Every line is stripped: no whitespace other than a newline next to
    the start of a line or to its end. *)
Fixpoint lines_ok (st : lstate) (s : str) : bool :=
  match s with
  | [] => not_ws st
  | c :: s' =>
      if is_nl c then not_ws st && lines_ok AtStart s'
      else if isspace c then not_start st && lines_ok AfterWs s'
      else lines_ok AfterText s'
  end.

Definition nlfree (s : str) : bool := forallb (fun c => negb (is_nl c)) s.
Definition allws (s : str) : bool := forallb isspace s.

(** What [lines_ok st] asks of the rest of the current line. *)
Definition line_cond (st : lstate) (l : str) : Prop :=
  match st with
  | AtStart => lstrip l = l /\ rstrip l = l
  | AfterWs => l <> [] /\ rstrip l = l
  | AfterText => rstrip l = l
  end.

(** The texts [clean_text] produces, which are the texts it leaves
    unchanged. *)
Record normal (t : str) : Prop := {
  normal_spaces : nodbl false t = true;
  normal_blank : run_ok 0 t = true;
  normal_lines : lines_ok AtStart t = true;
  normal_ends : strip t = t
}.

(** [n] repetitions respect the upper bound [hi]. *)
Definition within (hi : option nat) (n : nat) : Prop :=
  match hi with Some h => n <= h | None => True end.

(** The strings a pattern matches as a whole. *)
Fixpoint denotes (pat : pattern) (u : str) : Prop :=
  match pat with
  | [] => u = []
  | One p :: pat' => exists c u', u = c :: u' /\ p c = true /\ denotes pat' u'
  | Rep p lo hi :: pat' =>
      exists w u', u = w ++ u' /\ forallb p w = true /\
                   lo <= length w /\ within hi (length w) /\ denotes pat' u'
  end.

(** [s] starts with [x]; [s] contains [x]; [s] contains [l], later [r],
    and no [r] in between. *)
Definition has_prefix (x s : str) : Prop := exists b, s = x ++ b.
Definition has_infix (x s : str) : Prop := exists a b, s = a ++ x ++ b.
Definition has_enclosed (l r : cp) (s : str) : Prop :=
  exists a m b, s = a ++ l :: m ++ r :: b /\ ~ In r m.

(** The conditions under which the specification calls an expression
    XPath. *)
Definition xpath_like (e : str) : Prop :=
  has_prefix (of_string "/") e \/
  has_infix (of_string "::") e \/
  has_enclosed LPAR RPAR e \/
  has_enclosed LBRA RBRA e \/
  has_infix (of_string "last()") e \/
  has_infix (of_string "position()") e \/
  has_infix (of_string "contains(") e \/
  has_infix (of_string "text()") e \/
  has_infix (of_string "@") e.

(** What one match adds to the results. *)
Definition contribution (E : Env) (args : Args) (el : item (Node E))
  : list str :=
  match render E args el with
  | Some t => [strip t]
  | None => []
  end.

(** The lines [output] writes for the results. *)
Definition result_lines (results : list str) : list str :=
  map (fun result => result ++ [NL]) results.

(** [-x -e //table -e //a] *)
Definition sample_x : Args :=
  {| html := []; argument := []; body := false; text := false;
     expression := [of_string "//table"; of_string "//a"];
     check_existence := true; rawinput := false |}.

(** The single line text mode prints for the results. *)
Definition text_block (results : list str) : list str :=
  let final_text := clean_text (join_nl results) in
  if is_empty final_text then [] else [final_text].

(** [-t -e //script -e //p] *)
Definition sample_text_two : Args :=
  {| html := []; argument := []; body := false; text := true;
     expression := [of_string "//script"; of_string "//p"];
     check_existence := false; rawinput := false |}.

(** What a match adds to the results in attribute mode. *)
Definition attribute_entry (E : Env) (name : str) (n : Node E) : list str :=
  match env_get E n name with
  | Some v => [strip v]
  | None => []
  end.

(** [-a href -e //a] *)
Definition sample_href : Args :=
  {| html := []; argument := of_string "href"; body := false; text := false;
     expression := [of_string "//a"]; check_existence := false;
     rawinput := false |}.

Definition link_without_href : Sample.tree :=
  Sample.Element (of_string "a") [] [Sample.Text (of_string "v")].

Definition link_with_href : Sample.tree :=
  Sample.Element (of_string "a") [(of_string "href", of_string " x ")]
    [Sample.Text (of_string "t")].

(** [<p><a href=' x '>t</a><a>v</a></p>] *)
Definition padded_doc : Sample.tree :=
  Sample.Element (of_string "p") [] [link_with_href; link_without_href].

(** [-b -e //a] *)
Definition sample_body : Args :=
  {| html := []; argument := []; body := true; text := false;
     expression := [of_string "//a"]; check_existence := false;
     rawinput := false |}.

Definition empty_href_link : Sample.tree :=
  Sample.Element (of_string "a") [(of_string "href", [])] [].

Definition empty_href_doc : Sample.tree :=
  Sample.Element (of_string "p") [] [empty_href_link].

(** [-t] *)
Definition sample_text : Args :=
  {| html := []; argument := []; body := false; text := true;
     expression := []; check_existence := false; rawinput := false |}.

(** A document that declares the charset [undefined]. *)
Definition undefined_html : bytes :=
  Sample.to_bytes "<meta charset=undefined><p>x</p>".

Definition undefined_doc : Sample.tree :=
  Sample.Element (of_string "html") []
    [Sample.Element (of_string "head") []
       [Sample.Element (of_string "meta")
          [(of_string "charset", of_string "undefined")] []];
     Sample.Element (of_string "body") []
       [Sample.Element (of_string "p") [] [Sample.Text (of_string "x")]]].

(** ** Vocabulary of the further properties *)

(** The characters of [s] that are not whitespace, in order. *)
Definition visible (s : str) : str := filter (fun c => negb (isspace c)) s.

(** The one-character test of an atom. *)
Definition atom_test (a : atom) : cp -> bool :=
  match a with One p => p | Rep p _ _ => p end.

(** The characters a detected charset name is made of: digits, lower-case
    letters, [_] and [-]. *)
Definition is_charset_char (c : cp) : bool :=
  between 48%N 57%N c || between 97%N 122%N c || N.eqb c 95%N || N.eqb c 45%N.

(** The file [my-ebook.html], and a command line that names it. *)
Definition ebook_argv : list str :=
  [of_string "scrape"; of_string "my-ebook.html"; of_string "-e";
   of_string "//a"].

(** The text of a match before normalisation, in text mode. *)
Definition raw_text (E : Env) (el : item (Node E)) : str :=
  match el with
  | IStr s => s
  | INode n =>
      if env_has_text_content E n then env_text_content E n
      else List.concat (env_itertext E n)
  end.

(** [E] with another CSS translator and another parser. *)
Definition with_tools (E : Env) (translate : str -> exn + str)
    (parse : bool -> bytes -> exn + Doc E) : Env :=
  {| Doc := Doc E;
     Node := Node E;
     env_parse_args := env_parse_args E;
     env_help := env_help E;
     env_http_get := env_http_get E;
     env_open_read := env_open_read E;
     env_stdin := env_stdin E;
     env_css_to_xpath := translate;
     env_recode := env_recode E;
     env_fromstring := parse;
     env_xpath := env_xpath E;
     env_has_text_content := env_has_text_content E;
     env_text_content := env_text_content E;
     env_itertext := env_itertext E;
     env_tostring := env_tostring E;
     env_get := env_get E |}.

(** A translator for type selectors: [a] becomes [descendant-or-self::a];
    anything else is refused. *)
Definition translate_type_selector (css : str) : exn + str :=
  if negb (is_empty css) && forallb is_word css then
    inr (of_string "descendant-or-self::" ++ css)
  else
    inl (Exn OtherException (of_string "Expected selector")).

(** A parser that takes the byte FF, which no UTF-8 text holds, for a
    decoding error, and builds [doc] from any other input. *)
Definition parse_utf8_only (doc : Sample.tree) (raw : bool) (inp : bytes)
  : exn + Sample.tree :=
  if existsb (fun b => N.eqb (Byte.to_N b) 255%N) inp then
    inl (Exn UnicodeDecodeError (of_string "invalid start byte"))
  else inr doc.

(** A parser that refuses every input. *)
Definition parse_nothing (raw : bool) (inp : bytes) : exn + Sample.tree :=
  inl (Exn XMLSyntaxError (of_string "Document is empty")).

Definition strict_env (args : Args) (input : bytes) (doc : Sample.tree)
  : Env :=
  with_tools (Sample.env args input doc) translate_type_selector
             (parse_utf8_only doc).

(** [-e a -e //p -e 'a >'] *)
Definition sample_css : Args :=
  {| html := []; argument := []; body := false; text := false;
     expression := [of_string "a"; of_string "//p"; of_string "a >"];
     check_existence := false; rawinput := false |}.

(** [-e //a -e //p], and the same with [-b]. *)
Definition sample_two : Args :=
  {| html := []; argument := []; body := false; text := false;
     expression := [of_string "//a"; of_string "//p"];
     check_existence := false; rawinput := false |}.

(** No [-e] and no [-t]. *)
Definition sample_none : Args :=
  {| html := []; argument := []; body := false; text := false;
     expression := []; check_existence := false; rawinput := false |}.

(** [<p>], the Latin-1 byte FF and [</p>]. *)
Definition latin1_html : bytes :=
  Sample.to_bytes "<p>" ++ [xff] ++ Sample.to_bytes "</p>".

(** A document that declares [utf-8], and one that declares a charset no
    codec is registered for. *)
Definition utf8_html : bytes :=
  Sample.to_bytes "<meta charset='UTF-8'><p>x</p>".

Definition klingon_html : bytes :=
  Sample.to_bytes "<meta charset=klingon><p>x</p>".


(** The same options with other values for [-a] and [-b]. *)
Definition with_attribute_body (args : Args) (a : str) (b : bool) : Args :=
  {| html := html args; argument := a; body := b; text := text args;
     expression := expression args;
     check_existence := check_existence args; rawinput := rawinput args |}.

(** The expression [e] as it is evaluated, when [translated] is what the
    translator makes of a CSS selector. *)
Definition as_xpath (translated : str -> str) (e : str) : str :=
  if is_xpath e then e else translated e.

(** The CSS selectors among the expressions. *)
Definition css_only (exprs : list str) : list str :=
  filter (fun e => negb (is_xpath e)) exprs.

Definition conversion_error (x : exn) : str :=
  (of_string "Error converting CSS selector to XPath: " ++ exn_text x)
  ++ [NL].

Definition parse_error (x : exn) : str :=
  (of_string "Error parsing HTML: " ++ exn_text x) ++ [NL].

(** The body of the list comprehension of line 160. *)
Definition convert_expression (E : Env) (e : str) : M str :=
  if is_xpath e then ret e else convert_css_to_xpath E e.

(** The message of an empty input: standard input has its own. *)
Definition empty_input_error (args : Args) : str :=
  (if is_empty (html args)
   then of_string "Error: No input received from stdin"
   else of_string "Error: Input is empty or invalid") ++ [NL].

(** The collaborator that supplies the input, and the event of its call. *)
Definition input_event (args : Args) : event :=
  if is_empty (html args) then EvReadStdin
  else if starts_with (of_string "http://") (html args)
          || starts_with (of_string "https://") (html args)
       then EvHttpGet (html args)
       else EvOpenFile (html args).

Definition input_result (E : Env) (args : Args) : exn + bytes :=
  if is_empty (html args) then env_stdin E
  else if starts_with (of_string "http://") (html args)
          || starts_with (of_string "https://") (html args)
       then env_http_get E (html args)
       else env_open_read E (html args).

(** * Theorems *)

(** ** Text normalisation *)

Lemma is_nl_space c : is_nl c = true -> isspace c = true.
Proof.
  unfold is_nl, NL. intros H. apply N.eqb_eq in H. subst c. reflexivity.
Qed.

Lemma is_nl_not_sp c : is_nl c = true -> is_sp c = false.
Proof.
  unfold is_nl, NL. intros H. apply N.eqb_eq in H. subst c. reflexivity.
Qed.

Lemma is_sp_space c : is_sp c = true -> isspace c = true.
Proof.
  unfold is_sp, SP. intros H. apply N.eqb_eq in H. subst c. reflexivity.
Qed.

Lemma rep_bound p K s :
  (forall s' r, length s' <= length s -> K s' = Some r -> list_sum r <= length s') ->
  forall lo hi k r, rep p K s lo hi = Some (k, r) -> k + list_sum r <= length s.
Proof.
  induction s as [|c s IH]; intros HK lo hi k r; simpl.
  - destruct lo; [|discriminate].
    destruct (K []) eqn:E; simpl; [|discriminate].
    intros [= <- <-]. apply HK in E; simpl in *; lia.
  - assert (Hstop : match lo with 0 => option_map (pair 0) (K (c :: s)) | S _ => None end
                    = Some (k, r) -> k + list_sum r <= S (length s)).
    { destruct lo; [|discriminate].
      destruct (K (c :: s)) eqn:E; simpl; [|discriminate].
      intros [= <- <-]. apply HK in E; simpl in *; lia. }
    destruct (p c && more hi); [|exact Hstop].
    destruct (rep p K s (pred lo) (dec hi)) as [[k' r']|] eqn:E; [|exact Hstop].
    intros [= <- <-]. apply IH in E; [lia|].
    intros s' r0 Hl. apply HK. simpl. lia.
Qed.

Lemma match_here_bound pat : forall s r,
  match_here pat s = Some r -> list_sum r <= length s.
Proof.
  induction pat as [|a pat IH]; intros s r; simpl.
  - intros [= <-]. simpl. lia.
  - destruct a as [p|p lo hi].
    + destruct s as [|c s]; [discriminate|].
      destruct (p c); [|discriminate].
      destruct (match_here pat s) eqn:E; simpl; [|discriminate].
      intros [= <-]. apply IH in E. simpl. lia.
    + destruct (rep p (match_here pat) s lo hi) as [[k r']|] eqn:E; simpl; [|discriminate].
      intros [= <-]. simpl. eapply rep_bound; [|exact E].
      intros s' r0 _. apply IH.
Qed.

Lemma match_len_bound pat s n : match_len pat s = Some n -> n <= length s.
Proof.
  unfold match_len. destruct (match_here pat s) eqn:E; simpl; [|discriminate].
  intros [= <-]. now apply match_here_bound in E.
Qed.

Lemma sub_from_skip pat repl : forall s k, k <= length s ->
  sub_from pat repl k s = sub pat repl (skipn k s).
Proof.
  induction s as [|c s IH]; intros [|k] Hk; try reflexivity; simpl in Hk; [lia|].
  simpl. apply IH. lia.
Qed.

Lemma sub_cons pat repl c s :
  sub pat repl (c :: s) =
  match match_len pat (c :: s) with
  | Some (S n) => repl ++ sub pat repl (skipn n s)
  | Some 0 => repl ++ c :: sub pat repl s
  | None => c :: sub pat repl s
  end.
Proof.
  unfold sub at 1. simpl.
  destruct (match_len pat (c :: s)) as [[|n]|] eqn:E; try reflexivity.
  rewrite sub_from_skip; [reflexivity|].
  apply match_len_bound in E. simpl in E. lia.
Qed.

Lemma rep_last p : forall s lo,
  rep p (match_here []) s lo None =
  if lo <=? run p s then Some (run p s, []) else None.
Proof.
  induction s as [|c s IH]; intros lo; simpl.
  - destruct lo; reflexivity.
  - destruct (p c); simpl.
    + rewrite IH. destruct lo as [|lo]; simpl; [reflexivity|].
      destruct (lo <=? run p s); reflexivity.
    + destruct lo; reflexivity.
Qed.

Lemma match_len_last p lo s :
  match_len [Rep p lo None] s = if lo <=? run p s then Some (run p s) else None.
Proof.
  unfold match_len. simpl. rewrite rep_last.
  destruct (lo <=? run p s); simpl; [|reflexivity]. f_equal. lia.
Qed.

(** *** The blank-line pattern *)

Lemma match_here_One p pat c s :
  match_here (One p :: pat) (c :: s) =
  if p c then option_map (cons 1) (match_here pat s) else None.
Proof. reflexivity. Qed.

Lemma match_here_Rep p lo hi pat s :
  match_here (Rep p lo hi :: pat) s =
  option_map (fun kr => fst kr :: snd kr) (rep p (match_here pat) s lo hi).
Proof. reflexivity. Qed.

Lemma match_plus_nl s :
  match_here [plus is_nl] s =
  if 1 <=? run is_nl s then Some [run is_nl s] else None.
Proof.
  unfold plus. cbn [match_here]. rewrite rep_last.
  destruct (run is_nl s); reflexivity.
Qed.

Lemma nlcount0_run s : nlcount s = 0 -> run is_nl s = 0.
Proof. destruct s as [|c s]; simpl; [easy|]. destruct (is_nl c); easy. Qed.

Lemma run_nl_le_nlcount s : run is_nl s <= nlcount s.
Proof.
  induction s as [|c s IH]; simpl; [lia|]. destruct (is_nl c); lia.
Qed.

Lemma blank_tail2 : forall s,
  match rep isspace (match_here [plus is_nl]) s 0 None with
  | None => nlcount s = 0
  | Some (k, r) => 1 <= nlcount s /\ nlcount (skipn (k + list_sum r) s) = 0
  end.
Proof.
  induction s as [|c s IH].
  - reflexivity.
  - cbn [rep more dec option_map pred andb].
    assert (Hstop : nlcount s = 0 ->
      match option_map (pair 0) (match_here [plus is_nl] (c :: s)) with
      | None => nlcount (c :: s) = 0
      | Some (k, r) => 1 <= nlcount (c :: s) /\
                       nlcount (skipn (k + list_sum r) (c :: s)) = 0
      end).
    { intros H0. rewrite match_plus_nl. simpl run. simpl nlcount.
      destruct (is_nl c) eqn:Ec.
      - rewrite (nlcount0_run _ H0). simpl. split; [lia|exact H0].
      - simpl. destruct (isspace c); [exact H0|reflexivity]. }
    destruct (isspace c) eqn:Ew; rewrite ?andb_true_r; cbn [andb].
    + destruct (rep isspace (match_here [plus is_nl]) s 0 None) as [[k r]|].
      * destruct IH as [H1 H2]. simpl. rewrite Ew.
        destruct (is_nl c); split; try lia; exact H2.
      * apply Hstop, IH.
    + rewrite match_plus_nl. simpl.
      destruct (is_nl c) eqn:Ec.
      * apply is_nl_space in Ec. congruence.
      * simpl. rewrite Ew. reflexivity.
Qed.

Lemma blank_tail0 : forall s,
  match rep isspace (match_here blank_tail1) s 0 None with
  | None => nlcount s <= 1
  | Some (k, r) => 2 <= nlcount s /\ nlcount (skipn (k + list_sum r) s) = 0
  end.
Proof.
  induction s as [|c s IH].
  - simpl. lia.
  - cbn [rep more dec option_map pred andb].
    assert (Hstop : nlcount s <= 1 ->
      match option_map (pair 0) (match_here blank_tail1 (c :: s)) with
      | None => nlcount (c :: s) <= 1
      | Some (k, r) => 2 <= nlcount (c :: s) /\
                       nlcount (skipn (k + list_sum r) (c :: s)) = 0
      end).
    { intros H0. unfold blank_tail1, star.
      rewrite match_here_One, match_here_Rep. simpl nlcount.
      destruct (is_nl c) eqn:Ec.
      - pose proof (blank_tail2 s) as H2.
        destruct (rep isspace (match_here [plus is_nl]) s 0 None) as [[k r]|].
        + simpl. destruct H2 as [H2 H3]. split; [lia|].
          replace (k + (list_sum r + 0)) with (k + list_sum r) by lia. exact H3.
        + simpl. lia.
      - simpl. destruct (isspace c); [exact H0|lia]. }
    destruct (isspace c) eqn:Ew; cbn [andb].
    + destruct (rep isspace (match_here blank_tail1) s 0 None) as [[k r]|].
      * destruct IH as [H1 H2]. simpl. rewrite Ew.
        destruct (is_nl c); split; try lia; exact H2.
      * apply Hstop, IH.
    + assert (Ec : is_nl c = false).
      { destruct (is_nl c) eqn:Ec; [|reflexivity].
        apply is_nl_space in Ec. congruence. }
      unfold blank_tail1. rewrite match_here_One, Ec. simpl.
      rewrite Ec, Ew. lia.
Qed.

Lemma blank_match s :
  match match_len re_blank_lines s with
  | None =>
      match s with
      | c :: s' => is_nl c = true -> nlcount s' <= 1
      | [] => True
      end
  | Some n =>
      exists c s' m, s = c :: s' /\ is_nl c = true /\ n = S m /\
                     2 <= nlcount s' /\ nlcount (skipn m s') = 0
  end.
Proof.
  unfold match_len, re_blank_lines, star.
  destruct s as [|c s]; [exact I|].
  rewrite match_here_One, match_here_Rep.
  destruct (is_nl c) eqn:Ec; [|simpl; discriminate].
  pose proof (blank_tail0 s) as H. unfold blank_tail1, star in H.
  destruct (rep isspace
              (match_here [One is_nl; Rep isspace 0 None; plus is_nl]) s 0 None)
    as [[k r]|].
  - simpl. destruct H as [H1 H2].
    exists c, s, (k + list_sum r). repeat split; trivial.
  - simpl. intros _. exact H.
Qed.

(** *** Invariants of the three substitutions *)

Lemma sub_nil_none pat repl : match_len pat [] = None -> sub pat repl [] = [].
Proof. unfold sub. simpl. now intros ->. Qed.

Lemma skipn_length_le {A} (l : list A) k : length (skipn k l) <= length l.
Proof. rewrite length_skipn. lia. Qed.

Lemma run_ok_blank : forall n s, length s <= n -> forall cnt,
  cnt = 0 \/ cnt + nlcount s <= 2 ->
  run_ok cnt (sub re_blank_lines [NL; NL] s) = true.
Proof.
  induction n as [|n IH]; intros s Hn cnt Hc.
  - destruct s; [reflexivity|simpl in Hn; lia].
  - destruct s as [|c s]; [reflexivity|].
    rewrite sub_cons. pose proof (blank_match (c :: s)) as HM.
    destruct (match_len re_blank_lines (c :: s)) as [m|].
    + destruct HM as (c' & s' & m' & [= <- <-] & Ec & -> & H2 & H0).
      assert (cnt = 0) as ->.
      { destruct Hc as [|Hc]; [assumption|]. simpl in Hc. rewrite Ec in Hc. lia. }
      change (run_ok 2 (sub re_blank_lines [NL; NL] (skipn m' s)) = true).
      apply IH; [|right; lia].
      pose proof (skipn_length_le s m'). simpl in Hn. lia.
    + simpl in Hn. simpl run_ok.
      destruct (is_nl c) eqn:Ec.
      * specialize (HM eq_refl).
        assert (cnt < 2) by (destruct Hc as [->|Hc]; [lia|];
                             simpl in Hc; rewrite Ec in Hc; lia).
        apply andb_true_intro. split; [now apply Nat.ltb_lt|].
        apply IH; [lia|]. right.
        destruct Hc as [->|Hc]; [lia|]. simpl in Hc. rewrite Ec in Hc. lia.
      * destruct (isspace c) eqn:Ew.
        -- apply IH; [lia|]. destruct Hc as [->|Hc]; [now left|right].
           simpl in Hc. now rewrite Ec, Ew in Hc.
        -- apply IH; [lia|now left].
Qed.

Lemma nodbl_weaken s : forall b, nodbl b s = true -> nodbl false s = true.
Proof.
  destruct s as [|c s]; intros b; simpl; [easy|].
  intros H. apply andb_prop in H. tauto.
Qed.

Lemma nodbl_skipn : forall k s b, nodbl b s = true -> nodbl false (skipn k s) = true.
Proof.
  induction k as [|k IH]; intros s b H; simpl.
  - eapply nodbl_weaken; eassumption.
  - destruct s as [|c s]; [reflexivity|].
    simpl in H. apply andb_prop in H. eapply IH. apply H.
Qed.

Lemma nodbl_sub_nl pat : forall n s, length s <= n -> forall b,
  nodbl b s = true -> nodbl b (sub pat [NL; NL] s) = true.
Proof.
  induction n as [|n IH]; intros s Hn b Hb.
  - destruct s; [|simpl in Hn; lia].
    unfold sub. simpl. destruct (match_len pat []) as [[|m]|]; simpl;
      now rewrite ?andb_false_r.
  - destruct s as [|c s].
    + unfold sub. simpl. destruct (match_len pat []) as [[|m]|]; simpl;
        now rewrite ?andb_false_r.
    + rewrite sub_cons. simpl in Hn, Hb. apply andb_prop in Hb as [Hb1 Hb2].
      destruct (match_len pat (c :: s)) as [[|m]|].
      * simpl. rewrite andb_false_r. simpl. apply IH; [lia|exact Hb2].
      * simpl. rewrite andb_false_r. simpl. apply IH.
        -- pose proof (skipn_length_le s m). lia.
        -- eapply nodbl_skipn; eassumption.
      * simpl. rewrite Hb1. apply IH; [lia|exact Hb2].
Qed.

Lemma run_skipn_run p : forall s, run p (skipn (run p s) s) = 0.
Proof.
  induction s as [|c s IH]; simpl; [reflexivity|].
  destruct (p c) eqn:E; simpl; [exact IH|now rewrite E].
Qed.

Lemma nodbl_spaces : forall n s, length s <= n -> forall b,
  (b = true -> run is_sp s = 0) ->
  nodbl b (sub re_spaces [SP] s) = true.
Proof.
  induction n as [|n IH]; intros s Hn b Hb.
  - destruct s; [reflexivity|simpl in Hn; lia].
  - destruct s as [|c s]; [reflexivity|].
    rewrite sub_cons. unfold re_spaces, plus. rewrite match_len_last.
    simpl in Hn. simpl run in *.
    destruct (is_sp c) eqn:Ec.
    + simpl. destruct b; [specialize (Hb eq_refl); discriminate|].
      simpl. apply IH.
      * pose proof (skipn_length_le s (run is_sp s)). lia.
      * intros _. apply run_skipn_run.
    + simpl. rewrite Ec, andb_false_r. simpl. apply IH; [lia|discriminate].
Qed.

Lemma sub_no_match pat repl : forall s,
  (forall k, match_len pat (skipn k s) = None) -> sub pat repl s = s.
Proof.
  induction s as [|c s IH]; intros H.
  - apply sub_nil_none. apply (H 0).
  - rewrite sub_cons. pose proof (H 0) as H0. simpl in H0. rewrite H0.
    f_equal. apply IH. intros k. apply (H (S k)).
Qed.

Lemma nodbl_true_run s : nodbl true s = true -> run is_sp s = 0.
Proof.
  destruct s as [|c s]; simpl; [easy|]. destruct (is_sp c); simpl; easy.
Qed.

Lemma is_sp_eq c : is_sp c = true -> c = SP.
Proof. unfold is_sp. apply N.eqb_eq. Qed.

Lemma is_nl_eq c : is_nl c = true -> c = NL.
Proof. unfold is_nl. apply N.eqb_eq. Qed.

Lemma spaces_fix : forall s b, nodbl b s = true -> sub re_spaces [SP] s = s.
Proof.
  induction s as [|c s IH]; intros b H; [reflexivity|].
  rewrite sub_cons. unfold re_spaces, plus. rewrite match_len_last.
  simpl in H. apply andb_prop in H as [_ H]. simpl run.
  destruct (is_sp c) eqn:Ec.
  - rewrite (nodbl_true_run _ H). simpl.
    rewrite (is_sp_eq _ Ec). f_equal. eapply IH. eassumption.
  - simpl. f_equal. eapply IH. eassumption.
Qed.

Lemma run_ok_mono : forall s c c', c' <= c -> run_ok c s = true -> run_ok c' s = true.
Proof.
  induction s as [|x s IH]; intros c c' Hc; simpl; [easy|].
  destruct (is_nl x).
  - intros H. apply andb_prop in H as [H1 H2]. apply Nat.ltb_lt in H1.
    apply andb_true_intro. split; [apply Nat.ltb_lt; lia|].
    eapply IH; [|exact H2]. lia.
  - destruct (isspace x); [apply IH; assumption|easy].
Qed.

Lemma run_ok_skipn : forall k s c, run_ok c s = true -> run_ok 0 (skipn k s) = true.
Proof.
  induction k as [|k IH]; intros s c H; simpl.
  - eapply run_ok_mono; [|exact H]. lia.
  - destruct s as [|x s]; [reflexivity|]. simpl in H.
    destruct (is_nl x).
    + apply andb_prop in H as [_ H]. eapply IH; exact H.
    + destruct (isspace x); eapply IH; exact H.
Qed.

Lemma run_ok_nlcount : forall s c, c <= 2 -> run_ok c s = true -> c + nlcount s <= 2.
Proof.
  induction s as [|x s IH]; intros c Hc; simpl; [lia|].
  destruct (is_nl x).
  - intros H. apply andb_prop in H as [H1 H2]. apply Nat.ltb_lt in H1.
    apply IH in H2; lia.
  - destruct (isspace x); [apply IH; assumption|lia].
Qed.

Lemma blank_fix s : run_ok 0 s = true -> sub re_blank_lines [NL; NL] s = s.
Proof.
  intros H. apply sub_no_match. intros k.
  pose proof (run_ok_skipn k s _ H) as Hk.
  pose proof (blank_match (skipn k s)) as HM.
  destruct (match_len re_blank_lines (skipn k s)); [|reflexivity].
  destruct HM as (c & s' & m & E & Ec & _ & H2 & _).
  rewrite E in Hk. apply run_ok_nlcount in Hk; [|lia].
  simpl in Hk. rewrite Ec in Hk. lia.
Qed.

Lemma newlines3_fix s : run_ok 0 s = true -> sub re_newlines3 [NL; NL] s = s.
Proof.
  intros H. apply sub_no_match. intros k.
  pose proof (run_ok_skipn k s _ H) as Hk.
  unfold re_newlines3. rewrite match_len_last.
  apply run_ok_nlcount in Hk; [|lia].
  pose proof (run_nl_le_nlcount (skipn k s)).
  destruct (3 <=? run is_nl (skipn k s)) eqn:E; [|reflexivity].
  apply Nat.leb_le in E. lia.
Qed.

(** *** Strip *)

Lemma lstrip_app a b :
  lstrip (a ++ b) = match lstrip a with [] => lstrip b | _ => lstrip a ++ b end.
Proof.
  induction a as [|c a IH]; simpl; [reflexivity|].
  destruct (isspace c); [exact IH|reflexivity].
Qed.

Lemma rstrip_cons c y :
  rstrip (c :: y) =
  match rstrip y with
  | [] => if isspace c then [] else [c]
  | _ => c :: rstrip y
  end.
Proof.
  unfold rstrip. simpl rev. rewrite lstrip_app.
  destruct (lstrip (rev y)) as [|x l]; simpl.
  - destruct (isspace c); reflexivity.
  - rewrite rev_app_distr. simpl.
    destruct (rev l ++ [x]) eqn:E; [|reflexivity].
    apply (f_equal (@length _)) in E. rewrite length_app in E. simpl in E. lia.
Qed.

Lemma rstrip_nil : rstrip [] = [].
Proof. reflexivity. Qed.

Lemma lstrip_length s : length (lstrip s) <= length s.
Proof.
  induction s as [|c s IH]; simpl; [lia|]. destruct (isspace c); simpl; lia.
Qed.

Lemma lstrip_fix_head c s : lstrip (c :: s) = c :: s -> isspace c = false.
Proof.
  simpl. destruct (isspace c); [|reflexivity].
  intros E. apply (f_equal (@length _)) in E. pose proof (lstrip_length s).
  simpl in E. lia.
Qed.

Lemma lstrip_lstrip s : lstrip (lstrip s) = lstrip s.
Proof.
  induction s as [|c s IH]; simpl; [reflexivity|].
  destruct (isspace c) eqn:E; [exact IH|]. simpl. now rewrite E.
Qed.

Lemma rstrip_rstrip s : rstrip (rstrip s) = rstrip s.
Proof. unfold rstrip. now rewrite rev_involutive, lstrip_lstrip. Qed.

Lemma lstrip_rstrip_fix z : lstrip z = z -> lstrip (rstrip z) = rstrip z.
Proof.
  destruct z as [|c z]; [reflexivity|]. intros H. apply lstrip_fix_head in H.
  rewrite rstrip_cons. destruct (rstrip z); rewrite ?H; simpl; now rewrite H.
Qed.

Lemma strip_lfix s : lstrip (strip s) = strip s.
Proof. unfold strip. apply lstrip_rstrip_fix, lstrip_lstrip. Qed.

Lemma strip_rfix s : rstrip (strip s) = strip s.
Proof. unfold strip. apply rstrip_rstrip. Qed.

Lemma strip_fix s : lstrip s = s -> rstrip s = s -> strip s = s.
Proof. unfold strip. now intros -> ->. Qed.

Lemma strip_strip s : strip (strip s) = strip s.
Proof. apply strip_fix; [apply strip_lfix|apply strip_rfix]. Qed.

(** *** Lines *)

Lemma split_nl_nonempty s : split_nl s <> [].
Proof.
  destruct s as [|c s]; simpl; [discriminate|].
  destruct (is_nl c); [discriminate|]. destruct (split_nl s); discriminate.
Qed.

Lemma join_cons2 sep p q ps :
  join sep (p :: q :: ps) = p ++ sep ++ join sep (q :: ps).
Proof. reflexivity. Qed.

Lemma join_split s : join_nl (split_nl s) = s.
Proof.
  unfold join_nl. induction s as [|c s IH]; [reflexivity|]. simpl split_nl.
  pose proof (split_nl_nonempty s) as Hne.
  destruct (is_nl c) eqn:Ec.
  - destruct (split_nl s) as [|l ls]; [congruence|].
    rewrite join_cons2, IH. simpl. now rewrite (is_nl_eq _ Ec).
  - destruct (split_nl s) as [|l ls]; [congruence|].
    destruct ls as [|l2 ls]; simpl in *; now rewrite IH.
Qed.

Lemma split_nl_nlfree s : Forall (fun l => nlfree l = true) (split_nl s).
Proof.
  induction s as [|c s IH]; simpl; [repeat constructor|].
  destruct (is_nl c) eqn:Ec; [constructor; [reflexivity|exact IH]|].
  destruct (split_nl s) as [|l ls]; [repeat constructor; simpl; now rewrite Ec|].
  inversion IH; subst. constructor; [|assumption]. simpl. now rewrite Ec.
Qed.

Lemma rstrip_fix_tail c l : rstrip (c :: l) = c :: l -> rstrip l = l.
Proof.
  rewrite rstrip_cons. destruct (rstrip l) eqn:E.
  - destruct (isspace c); [discriminate|]. now intros [= <-].
  - now intros [= <-].
Qed.

Lemma lines_ok_split : forall s st, lines_ok st s = true ->
  match split_nl s with
  | l :: ls => line_cond st l /\ Forall (fun l => strip l = l) ls
  | [] => False
  end.
Proof.
  induction s as [|c s IH]; intros st H; simpl in *.
  - split; [|constructor]. destruct st; simpl; try discriminate; auto.
  - destruct (is_nl c) eqn:Ec.
    + apply andb_prop in H as [H1 H2]. apply IH in H2.
      destruct (split_nl s) as [|l ls]; [contradiction|].
      destruct H2 as [[Ha Hb] H2]. split.
      * destruct st; simpl; try discriminate; auto.
      * constructor; [now apply strip_fix|assumption].
    + destruct (isspace c) eqn:Ew.
      * apply andb_prop in H as [H1 H2]. apply IH in H2.
        destruct (split_nl s) as [|l ls]; [contradiction|].
        destruct H2 as [[Ha Hb] H2]. split; [|assumption].
        assert (Hr : rstrip (c :: l) = c :: l).
        { rewrite rstrip_cons, Hb. destruct l; [congruence|reflexivity]. }
        destruct st; simpl; try discriminate; auto. split; [discriminate|auto].
      * apply IH in H.
        destruct (split_nl s) as [|l ls]; [contradiction|].
        destruct H as [Hb H2]. simpl in Hb. split; [|assumption].
        assert (Hr : rstrip (c :: l) = c :: l).
        { rewrite rstrip_cons, Hb. destruct l; [now rewrite Ew|reflexivity]. }
        destruct st; simpl; auto.
        -- split; [now rewrite Ew|auto].
        -- split; [discriminate|auto].
Qed.

Lemma lines_ok_fix s : lines_ok AtStart s = true -> strip_lines s = s.
Proof.
  intros H. apply lines_ok_split in H. unfold strip_lines.
  rewrite <- (join_split s) at 2.
  destruct (split_nl s) as [|l ls]; [contradiction|].
  destruct H as [[Ha Hb] H]. f_equal. simpl. rewrite strip_fix by assumption.
  f_equal. induction H; simpl; [reflexivity|]. now f_equal.
Qed.

Lemma line_cond_ok : forall l st, nlfree l = true -> line_cond st l ->
  lines_ok st l = true.
Proof.
  induction l as [|c l IH]; intros st Hf Hc.
  - destruct st; simpl in *; auto. destruct Hc; congruence.
  - simpl in Hf. apply andb_prop in Hf as [Hn Hf].
    apply negb_true_iff in Hn. simpl. rewrite Hn.
    destruct (isspace c) eqn:Ew.
    + assert (Hr : rstrip (c :: l) = c :: l -> line_cond AfterWs l).
      { intros Hr. pose proof (rstrip_fix_tail _ _ Hr) as Hl. split; [|exact Hl].
        intros ->. rewrite rstrip_cons in Hr. simpl in Hr. rewrite Ew in Hr.
        discriminate. }
      destruct st; simpl in Hc.
      * destruct Hc as [Hc _]. apply lstrip_fix_head in Hc. congruence.
      * simpl. apply IH; [assumption|]. apply Hr, Hc.
      * simpl. apply IH; [assumption|]. apply Hr, Hc.
    + apply IH; [assumption|]. simpl.
      destruct st; simpl in Hc; eapply rstrip_fix_tail; apply Hc.
Qed.

Lemma lstrip_In x s : In x (lstrip s) -> In x s.
Proof.
  induction s as [|c s IH]; simpl; [easy|].
  destruct (isspace c); [auto|easy].
Qed.

Lemma strip_In x s : In x (strip s) -> In x s.
Proof.
  unfold strip, rstrip. intros H. apply in_rev in H. apply lstrip_In in H.
  apply in_rev in H. now apply lstrip_In.
Qed.

Lemma strip_nlfree s : nlfree s = true -> nlfree (strip s) = true.
Proof.
  unfold nlfree. rewrite !forallb_forall. intros H x Hx.
  apply H. now apply strip_In.
Qed.

Lemma lines_ok_app_nl : forall a st rest,
  lines_ok st (a ++ NL :: rest) = lines_ok st a && lines_ok AtStart rest.
Proof.
  induction a as [|c a IH]; intros st rest; simpl.
  - reflexivity.
  - destruct (is_nl c).
    + now rewrite IH, andb_assoc.
    + destruct (isspace c); rewrite IH; [now rewrite andb_assoc|reflexivity].
Qed.

Lemma lines_ok_strip_line l : nlfree l = true -> lines_ok AtStart (strip l) = true.
Proof.
  intros H. apply line_cond_ok; [now apply strip_nlfree|].
  split; [apply strip_lfix|apply strip_rfix].
Qed.

Lemma lines_ok_join ls :
  Forall (fun l => nlfree l = true) ls -> ls <> [] ->
  lines_ok AtStart (join_nl (map strip ls)) = true.
Proof.
  unfold join_nl. induction 1 as [|l ls Hl Hls IH]; intros Hne; [congruence|].
  destruct ls as [|l2 ls]; simpl map.
  - simpl. now apply lines_ok_strip_line.
  - rewrite join_cons2. simpl app. rewrite lines_ok_app_nl.
    rewrite lines_ok_strip_line by assumption. apply IH. discriminate.
Qed.

Lemma lines_ok_strip_lines s : lines_ok AtStart (strip_lines s) = true.
Proof.
  unfold strip_lines. apply lines_ok_join;
    [apply split_nl_nlfree|apply split_nl_nonempty].
Qed.

Lemma lines_ok_lstrip : forall s st, lines_ok st s = true ->
  lines_ok AtStart (lstrip s) = true.
Proof.
  induction s as [|c s IH]; intros st H; simpl; [reflexivity|].
  simpl in H. destruct (isspace c) eqn:Ew.
  - destruct (is_nl c).
    + apply andb_prop in H as [_ H]. eapply IH; exact H.
    + apply andb_prop in H as [_ H]. eapply IH; exact H.
  - simpl. rewrite Ew. destruct (is_nl c) eqn:Ec; [|exact H].
    apply is_nl_space in Ec. congruence.
Qed.

Lemma allws_lines_ok : forall s, allws s = true -> lines_ok AfterWs s = false.
Proof.
  induction s as [|c s IH]; simpl; [reflexivity|].
  intros H. apply andb_prop in H as [Hc H].
  destruct (is_nl c); [reflexivity|]. rewrite Hc. simpl. now apply IH.
Qed.

Lemma allws_lstrip s : allws (lstrip s) = allws s.
Proof.
  induction s as [|c s IH]; simpl; [reflexivity|].
  destruct (isspace c) eqn:E; simpl; [exact IH|now rewrite E].
Qed.

Lemma allws_rstrip : forall s, allws (rstrip s) = allws s.
Proof.
  induction s as [|c s IH]; [reflexivity|].
  rewrite rstrip_cons. simpl. destruct (rstrip s) as [|x l] eqn:E.
  - rewrite <- IH. simpl. rewrite andb_true_r.
    destruct (isspace c) eqn:Ec; simpl; [reflexivity|now rewrite Ec].
  - rewrite <- IH. reflexivity.
Qed.

Lemma rstrip_nil_allws s : rstrip s = [] -> allws s = true.
Proof. intros H. now rewrite <- allws_rstrip, H. Qed.

Lemma lines_ok_rstrip : forall s st, lines_ok st s = true ->
  lines_ok st (rstrip s) = true.
Proof.
  induction s as [|c s IH]; intros st H; [exact H|].
  rewrite rstrip_cons. destruct (rstrip s) as [|x l] eqn:E.
  - apply rstrip_nil_allws in E. simpl in H.
    destruct (isspace c) eqn:Ew.
    + destruct (is_nl c).
      * apply andb_prop in H as [H _]. exact H.
      * apply andb_prop in H as [_ H]. rewrite allws_lines_ok in H; easy.
    + simpl. rewrite Ew.
      destruct (is_nl c) eqn:Ec; [apply is_nl_space in Ec; congruence|reflexivity].
  - rewrite <- E in *. simpl in *. destruct (is_nl c).
    + apply andb_prop in H as [H1 H2]. rewrite H1. now apply IH.
    + destruct (isspace c).
      * apply andb_prop in H as [H1 H2]. rewrite H1. now apply IH.
      * now apply IH.
Qed.

Lemma lines_ok_strip s : lines_ok AtStart s = true -> lines_ok AtStart (strip s) = true.
Proof.
  intros H. unfold strip. apply lines_ok_rstrip. eapply lines_ok_lstrip. exact H.
Qed.

(** *** The invariants through strip_lines and strip *)

Lemma nodbl_app_nl : forall a b rest,
  nodbl b (a ++ NL :: rest) = nodbl b a && nodbl false rest.
Proof.
  induction a as [|c a IH]; intros b rest; simpl.
  - change (is_sp NL) with false. now rewrite andb_false_r.
  - now rewrite IH, andb_assoc.
Qed.

Lemma nodbl_lstrip : forall s b, nodbl b s = true -> nodbl false (lstrip s) = true.
Proof.
  induction s as [|c s IH]; intros b H; simpl; [reflexivity|].
  destruct (isspace c).
  - simpl in H. apply andb_prop in H as [_ H]. eapply IH; exact H.
  - eapply nodbl_weaken; exact H.
Qed.

Lemma nodbl_rstrip : forall s b, nodbl b s = true -> nodbl b (rstrip s) = true.
Proof.
  induction s as [|c s IH]; intros b H; [exact H|].
  rewrite rstrip_cons. simpl in H. apply andb_prop in H as [H1 H2].
  destruct (rstrip s) as [|x l] eqn:E.
  - destruct (isspace c); [reflexivity|]. simpl. now rewrite H1.
  - rewrite <- E in *. simpl. rewrite H1. now apply IH.
Qed.

Lemma nodbl_strip s : nodbl false s = true -> nodbl false (strip s) = true.
Proof.
  intros H. unfold strip. apply nodbl_rstrip. eapply nodbl_lstrip; exact H.
Qed.

Lemma nodbl_join_strip : forall ls,
  nodbl false (join_nl ls) = true -> nodbl false (join_nl (map strip ls)) = true.
Proof.
  unfold join_nl. induction ls as [|l ls IH]; [easy|].
  destruct ls as [|l2 ls]; simpl map.
  - simpl. apply nodbl_strip.
  - rewrite !join_cons2. simpl app. rewrite !nodbl_app_nl.
    intros H. apply andb_prop in H as [H1 H2].
    rewrite (nodbl_strip _ H1). now apply IH.
Qed.

Lemma nodbl_strip_lines s :
  nodbl false s = true -> nodbl false (strip_lines s) = true.
Proof.
  intros H. unfold strip_lines. apply nodbl_join_strip. now rewrite join_split.
Qed.

Lemma run_ok_line : forall a cnt rest, nlfree a = true ->
  run_ok cnt (a ++ NL :: rest) =
  (let c' := if allws a then cnt else 0 in (c' <? 2) && run_ok (S c') rest).
Proof.
  induction a as [|c a IH]; intros cnt rest H; [reflexivity|].
  simpl in H. apply andb_prop in H as [Hc H]. apply negb_true_iff in Hc.
  simpl. rewrite Hc. destruct (isspace c); simpl.
  - now apply IH.
  - rewrite IH by assumption. simpl. now destruct (allws a).
Qed.

Lemma run_ok_nlfree : forall a cnt, nlfree a = true -> run_ok cnt a = true.
Proof.
  induction a as [|c a IH]; intros cnt H; [reflexivity|].
  simpl in H. apply andb_prop in H as [Hc H]. apply negb_true_iff in Hc.
  simpl. rewrite Hc. destruct (isspace c); now apply IH.
Qed.

Lemma allws_strip l : allws (strip l) = allws l.
Proof. unfold strip. now rewrite allws_rstrip, allws_lstrip. Qed.

Lemma run_ok_join_strip ls : Forall (fun l => nlfree l = true) ls ->
  forall cnt, run_ok cnt (join_nl ls) = true ->
  run_ok cnt (join_nl (map strip ls)) = true.
Proof.
  unfold join_nl. induction 1 as [|l ls Hl Hls IH]; intros cnt; [easy|].
  destruct ls as [|l2 ls]; simpl map.
  - intros _. simpl. now apply run_ok_nlfree, strip_nlfree.
  - rewrite !join_cons2. simpl app.
    rewrite !run_ok_line by (try apply strip_nlfree; assumption).
    rewrite allws_strip. simpl.
    intros H. apply andb_prop in H as [H1 H2]. rewrite H1. now apply IH.
Qed.

Lemma run_ok_strip_lines s :
  run_ok 0 s = true -> run_ok 0 (strip_lines s) = true.
Proof.
  intros H. unfold strip_lines. apply run_ok_join_strip;
    [apply split_nl_nlfree|now rewrite join_split].
Qed.

Lemma run_ok_lstrip : forall s c, run_ok c s = true -> run_ok 0 (lstrip s) = true.
Proof.
  induction s as [|x s IH]; intros c H; simpl; [reflexivity|].
  simpl in H. destruct (isspace x) eqn:Ew.
  - destruct (is_nl x).
    + apply andb_prop in H as [_ H]. eapply IH; exact H.
    + eapply IH; exact H.
  - simpl. rewrite Ew.
    destruct (is_nl x) eqn:Ec; [apply is_nl_space in Ec; congruence|exact H].
Qed.

Lemma run_ok_rstrip : forall s c, run_ok c s = true -> run_ok c (rstrip s) = true.
Proof.
  induction s as [|x s IH]; intros c H; [exact H|].
  rewrite rstrip_cons. destruct (rstrip s) as [|y l] eqn:E.
  - destruct (isspace x) eqn:Ew; [reflexivity|]. simpl. rewrite Ew.
    destruct (is_nl x) eqn:Ec; [apply is_nl_space in Ec; congruence|reflexivity].
  - rewrite <- E in *. simpl in *. destruct (is_nl x).
    + apply andb_prop in H as [H1 H2]. rewrite H1. now apply IH.
    + destruct (isspace x); now apply IH.
Qed.

Lemma run_ok_strip s : run_ok 0 s = true -> run_ok 0 (strip s) = true.
Proof.
  intros H. unfold strip. apply run_ok_rstrip. eapply run_ok_lstrip; exact H.
Qed.

(** *** Idempotence *)

Lemma clean_text_normal s : normal (clean_text s).
Proof.
  unfold clean_text.
  set (t1 := sub re_spaces [SP] s).
  set (t2 := sub re_newlines3 [NL; NL] t1).
  set (t3 := sub re_blank_lines [NL; NL] t2).
  assert (H1 : nodbl false t1 = true)
    by (apply (nodbl_spaces (length s)); [lia|discriminate]).
  assert (H2 : nodbl false t2 = true)
    by (apply (nodbl_sub_nl _ (length t1)); [lia|exact H1]).
  assert (H3 : nodbl false t3 = true)
    by (apply (nodbl_sub_nl _ (length t2)); [lia|exact H2]).
  assert (R3 : run_ok 0 t3 = true)
    by (apply (run_ok_blank (length t2)); [lia|now left]).
  split.
  - now apply nodbl_strip, nodbl_strip_lines.
  - now apply run_ok_strip, run_ok_strip_lines.
  - apply lines_ok_strip, lines_ok_strip_lines.
  - apply strip_strip.
Qed.

Lemma normal_fixed t : normal t -> clean_text t = t.
Proof.
  intros [H1 H2 H3 H4]. unfold clean_text.
  rewrite (spaces_fix _ _ H1), (newlines3_fix _ H2), (blank_fix _ H2),
    (lines_ok_fix _ H3). exact H4.
Qed.

(** C1. [clean_text] is idempotent: for every string [s],
    normalising the normalised text gives the normalised text again.  The
    normaliser collapses runs of spaces to one space, runs of three or
    more newlines to two, newline / whitespace / newline / whitespace /
    newlines to two newlines, strips every line and strips the text. *)
Theorem clean_text_idempotent s : clean_text (clean_text s) = clean_text s.
Proof. apply normal_fixed, clean_text_normal. Qed.

(** ** Selector classification *)

Lemma rep_sound p (K : str -> option (list nat)) (D : str -> Prop) :
  (forall s r, K s = Some r -> exists u v, s = u ++ v /\ D u) ->
  forall s lo hi k r, rep p K s lo hi = Some (k, r) ->
  exists w u v, s = w ++ u ++ v /\ forallb p w = true /\
                lo <= length w /\ within hi (length w) /\ D u.
Proof.
  intros HK. induction s as [|c s IH]; intros lo hi k r.
  - simpl. destruct lo; [|discriminate].
    destruct (K []) eqn:E; [|discriminate]. intros _.
    destruct (HK _ _ E) as (u & v & Huv & Hu).
    exists [], u, v. repeat split; trivial. destruct hi; simpl; lia.
  - assert (Hstop : match lo with
                    | 0 => option_map (pair 0) (K (c :: s))
                    | S _ => None
                    end = Some (k, r) ->
            exists w u v, c :: s = w ++ u ++ v /\ forallb p w = true /\
                lo <= length w /\ within hi (length w) /\ D u).
    { destruct lo; [|discriminate].
      destruct (K (c :: s)) eqn:E; [|discriminate]. intros _.
      destruct (HK _ _ E) as (u & v & Huv & Hu).
      exists [], u, v. repeat split; trivial. destruct hi; simpl; lia. }
    simpl. destruct (p c) eqn:Ec; [|exact Hstop].
    destruct (more hi) eqn:Em; [|exact Hstop]. simpl.
    destruct (rep p K s (pred lo) (dec hi)) as [[k' r']|] eqn:E; [|exact Hstop].
    intros _. destruct (IH _ _ _ _ E) as (w & u & v & -> & Hw & Hlo & Hhi & Hu).
    exists (c :: w), u, v. simpl. rewrite Ec, Hw. repeat split; trivial; [lia|].
    destruct hi as [[|h]|]; simpl in *; try discriminate; lia.
Qed.

Lemma rep_complete p (K : str -> option (list nat)) (D : str -> Prop) :
  (forall u v, D u -> K (u ++ v) <> None) ->
  forall w u v lo hi, forallb p w = true -> lo <= length w ->
  within hi (length w) -> D u -> rep p K (w ++ u ++ v) lo hi <> None.
Proof.
  intros HK. induction w as [|c w IH]; intros u v lo hi Hw Hlo Hhi Hu.
  - simpl in Hlo. assert (lo = 0) as -> by lia. simpl app.
    specialize (HK u v Hu).
    destruct (u ++ v) as [|x s]; simpl.
    + destruct (K []); [discriminate|congruence].
    + destruct (p x && more hi).
      * destruct (rep p K s 0 (dec hi)) as [[k r]|]; [discriminate|].
        destruct (K (x :: s)); [discriminate|congruence].
      * destruct (K (x :: s)); [discriminate|congruence].
  - simpl in Hw. apply andb_prop in Hw as [Hc Hw]. simpl.
    rewrite Hc. simpl in Hlo, Hhi.
    assert (Hm : more hi = true)
      by (destruct hi as [[|h]|]; simpl in *; trivial; lia).
    rewrite Hm. simpl.
    assert (H : rep p K (w ++ u ++ v) (pred lo) (dec hi) <> None).
    { apply IH; trivial; [lia|].
      destruct hi as [[|h]|]; simpl in *; trivial; lia. }
    destruct (rep p K (w ++ u ++ v) (pred lo) (dec hi)) as [[k r]|];
      [discriminate|congruence].
Qed.

Lemma match_here_sound pat : forall s r, match_here pat s = Some r ->
  exists u v, s = u ++ v /\ denotes pat u.
Proof.
  induction pat as [|a pat IH]; intros s r.
  - intros _. exists [], s. split; reflexivity.
  - destruct a as [p|p lo hi].
    + destruct s as [|c s]; [discriminate|]. simpl.
      destruct (p c) eqn:Ec; [|discriminate].
      destruct (match_here pat s) eqn:E; [|discriminate]. intros _.
      destruct (IH _ _ E) as (u & v & -> & Hu).
      exists (c :: u), v. split; [reflexivity|]. now exists c, u.
    + simpl.
      destruct (rep p (match_here pat) s lo hi) as [[k r']|] eqn:E;
        [|discriminate].
      intros _.
      destruct (rep_sound p (match_here pat) (denotes pat) IH _ _ _ _ _ E)
        as (w & u & v & -> & Hw & Hlo & Hhi & Hu).
      exists (w ++ u), v. rewrite <- app_assoc. split; [reflexivity|].
      now exists w, u.
Qed.

Lemma match_here_complete pat : forall u v, denotes pat u ->
  match_here pat (u ++ v) <> None.
Proof.
  induction pat as [|a pat IH]; intros u v.
  - discriminate.
  - destruct a as [p|p lo hi].
    + intros (c & u' & -> & Hc & Hu). simpl. rewrite Hc.
      specialize (IH u' v Hu).
      destruct (match_here pat (u' ++ v)); [discriminate|congruence].
    + intros (w & u' & -> & Hw & Hlo & Hhi & Hu). simpl.
      rewrite <- app_assoc.
      pose proof (rep_complete p (match_here pat) (denotes pat) IH
                    w u' v lo hi Hw Hlo Hhi Hu) as H.
      destruct (rep p (match_here pat) (w ++ u' ++ v) lo hi);
        [discriminate|congruence].
Qed.

Lemma match_here_iff pat s :
  match_here pat s <> None <-> exists u v, s = u ++ v /\ denotes pat u.
Proof.
  split.
  - destruct (match_here pat s) eqn:E; [|congruence]. intros _.
    eapply match_here_sound; eassumption.
  - intros (u & v & -> & H). now apply match_here_complete.
Qed.

Lemma search_from_iff pat : forall s pos,
  search_from pat pos s <> None <->
  exists a u b, s = a ++ u ++ b /\ denotes pat u.
Proof.
  induction s as [|c s IH]; intros pos; simpl.
  - destruct (match_here pat []) eqn:E.
    + split; [intros _|discriminate].
      destruct (match_here_sound _ _ _ E) as (u & v & Huv & Hu).
      exists [], u, v. now split.
    + split; [congruence|]. intros (a & u & b & Hs & Hu).
      destruct a; [|discriminate]. simpl in Hs.
      exfalso. apply (match_here_complete pat u b Hu). now rewrite <- Hs.
  - destruct (match_here pat (c :: s)) eqn:E.
    + split; [intros _|discriminate].
      destruct (match_here_sound _ _ _ E) as (u & v & Huv & Hu).
      exists [], u, v. now split.
    + rewrite IH. split.
      * intros (a & u & b & -> & Hu). exists (c :: a), u, b. now split.
      * intros (a & u & b & Hs & Hu). destruct a as [|x a].
        -- exfalso. apply (match_here_complete pat u b Hu).
           simpl in Hs. now rewrite <- Hs.
        -- injection Hs as -> ->. now exists a, u, b.
Qed.

Lemma denotes_lit l : forall u, denotes (map chr l) u <-> u = l.
Proof.
  induction l as [|x l IH]; intros u; simpl; [tauto|]. split.
  - intros (c & u' & -> & Hc & Hu). apply N.eqb_eq in Hc. subst c.
    f_equal. now apply IH.
  - intros ->. exists x, l. repeat split; [apply N.eqb_refl|now apply IH].
Qed.

Lemma forallb_not_chr r m : forallb (not_chr r) m = true <-> ~ In r m.
Proof.
  unfold not_chr. induction m as [|x m IH]; simpl; [tauto|].
  rewrite andb_true_iff, IH, negb_true_iff, N.eqb_neq. firstorder congruence.
Qed.

Lemma denotes_enclosed l r u :
  denotes [chr l; star (not_chr r); chr r] u <->
  exists m, u = l :: m ++ [r] /\ ~ In r m.
Proof.
  simpl. split.
  - intros (c & u1 & -> & Hc & w & u2 & -> & Hw & _ & _ & c2 & u3 & -> & Hc2 & ->).
    apply N.eqb_eq in Hc, Hc2. subst. exists w. split; [reflexivity|].
    now apply forallb_not_chr.
  - intros (m & -> & Hm). exists l, (m ++ [r]). repeat split; [apply N.eqb_refl|].
    exists m, [r]. repeat split; [now apply forallb_not_chr|lia|].
    exists r, []. repeat split. apply N.eqb_refl.
Qed.

Lemma re_search_infix x s :
  re_search (false, lit x) s = true <-> has_infix (of_string x) s.
Proof.
  unfold re_search, search, has_infix. simpl fst. simpl snd. cbv iota.
  pose proof (search_from_iff (lit x) s 0) as H.
  destruct (search_from (lit x) 0 s).
  - split; [intros _|reflexivity].
    destruct H as [H _]. destruct H as (a & u & b & -> & Hu); [discriminate|].
    apply denotes_lit in Hu. subst u. now exists a, b.
  - split; [discriminate|]. intros (a & b & ->). exfalso.
    apply H; [|reflexivity]. exists a, (of_string x), b. split; [reflexivity|].
    now apply denotes_lit.
Qed.

Lemma re_search_prefix x s :
  re_search (true, lit x) s = true <-> has_prefix (of_string x) s.
Proof.
  unfold re_search, search_anchored, has_prefix. simpl fst. simpl snd. cbv iota.
  pose proof (match_here_iff (lit x) s) as H.
  destruct (match_here (lit x) s); simpl.
  - split; [intros _|reflexivity].
    destruct H as [H _]. destruct H as (u & v & -> & Hu); [discriminate|].
    apply denotes_lit in Hu. subst u. now exists v.
  - split; [discriminate|]. intros (b & ->). exfalso.
    apply H; [|reflexivity]. exists (of_string x), b. split; [reflexivity|].
    now apply denotes_lit.
Qed.

Lemma re_search_enclosed l r s :
  re_search (false, [chr l; star (not_chr r); chr r]) s = true <->
  has_enclosed l r s.
Proof.
  unfold re_search, search, has_enclosed. simpl fst. simpl snd. cbv iota.
  pose proof (search_from_iff [chr l; star (not_chr r); chr r] s 0) as H.
  destruct (search_from [chr l; star (not_chr r); chr r] 0 s).
  - split; [intros _|reflexivity].
    destruct H as [H _]. destruct H as (a & u & b & -> & Hu); [discriminate|].
    apply denotes_enclosed in Hu. destruct Hu as (m & -> & Hm).
    exists a, m, b. split; [|assumption]. simpl. now rewrite <- app_assoc.
  - split; [discriminate|]. intros (a & m & b & -> & Hm). exfalso.
    apply H; [|reflexivity]. exists a, (l :: m ++ [r]), b. split.
    + simpl. now rewrite <- app_assoc.
    + apply denotes_enclosed. now exists m.
Qed.

Lemma is_xpath_iff e : is_xpath e = true <-> xpath_like e.
Proof.
  unfold is_xpath, xpath_patterns, xpath_like. cbn [existsb].
  rewrite !orb_true_iff.
  rewrite re_search_prefix, !re_search_infix, !re_search_enclosed.
  intuition discriminate.
Qed.

(** C2. Classification is a total function of the expression alone:
    an expression is XPath exactly when it starts with [/], or contains
    [::], or a [(] followed later by a [)], or a [[] followed later by a
    []], or one of [last()], [position()], [contains(], [text()], or an
    [@]; it is CSS otherwise; every expression has one of the two kinds
    and never both. *)
Theorem classify_total_and_exact e :
  (classify e = XPath <-> xpath_like e) /\
  (classify e = CSS <-> ~ xpath_like e) /\
  (classify e = XPath \/ classify e = CSS) /\
  ~ (classify e = XPath /\ classify e = CSS).
Proof.
  unfold classify. rewrite <- is_xpath_iff.
  destruct (is_xpath e); repeat split; try tauto; try congruence; intuition congruence.
Qed.

(** ** The extraction pipeline *)

Section Pipeline.

Variable E : Env.

Lemma collect_app args els1 els2 results :
  collect E args (els1 ++ els2) results =
  collect E args els2 (collect E args els1 results).
Proof. unfold collect. apply fold_left_app. Qed.

Lemma extract_from_no_match args doc : forall exprs results w,
  check_existence args = false ->
  (forall e, In e exprs -> env_xpath E doc e = inr []) ->
  extract_from E args doc exprs results w =
  (Ret results, World (out w) (log w ++ map EvXPath exprs)).
Proof.
  induction exprs as [|e es IH]; intros results w Hx Hall; simpl.
  - unfold ret. rewrite app_nil_r. now destruct w.
  - unfold bind, call, emit, bind. simpl.
    rewrite (Hall e (or_introl eq_refl)), Hx. simpl.
    rewrite IH; [|assumption|intros; apply Hall; now right]. simpl.
    now rewrite <- app_assoc.
Qed.

Lemma finalize_nil args : finalize args [] = [].
Proof. unfold finalize. simpl. now rewrite andb_false_r. Qed.

End Pipeline.

Section Output.

Lemma for_each_write (results : list str) : forall w,
  for_each results (fun result => write (result ++ [NL])) w =
  (Ret tt, World (out w ++ result_lines results) (log w)).
Proof.
  induction results as [|r rs IH]; intros w; simpl.
  - unfold ret. rewrite app_nil_r. now destruct w.
  - unfold bind, write. rewrite IH. simpl. now rewrite <- app_assoc.
Qed.

Lemma output_writes (args : Args) (results : list str) (w : world) :
  output args results w =
  (Ret tt,
   World (out w ++ (if body args && negb (text args)
                    then [body_open] ++ result_lines results ++ [body_close]
                    else result_lines results))
         (log w)).
Proof.
  unfold output. destruct (body args && negb (text args)).
  - unfold bind, write. rewrite for_each_write. simpl.
    now rewrite <- !app_assoc.
  - apply for_each_write.
Qed.

End Output.

Section Extraction.

Variable E : Env.

Lemma collect_contributions (args : Args) : forall els results,
  collect E args els results =
  results ++ flat_map (contribution E args) els.
Proof.
  unfold collect. induction els as [|el els IH]; intros results; simpl.
  - now rewrite app_nil_r.
  - rewrite IH. unfold collect_one, contribution.
    destruct (render E args el); simpl; [now rewrite <- app_assoc|reflexivity].
Qed.

Lemma extract_from_all (args : Args) (doc : Doc E)
    (found : str -> list (item (Node E))) : forall exprs results w,
  check_existence args = false ->
  (forall e, In e exprs -> env_xpath E doc e = inr (found e)) ->
  extract_from E args doc exprs results w =
  (Ret (results ++
        flat_map (fun e => flat_map (contribution E args) (found e)) exprs),
   World (out w) (log w ++ map EvXPath exprs)).
Proof.
  induction exprs as [|e es IH]; intros results w Hx Hall; simpl.
  - unfold ret. rewrite !app_nil_r. now destruct w.
  - unfold bind, call, emit, bind. simpl.
    rewrite (Hall e (or_introl eq_refl)), Hx. simpl.
    rewrite IH; [|assumption|intros; apply Hall; now right]. simpl.
    rewrite collect_contributions, <- !app_assoc. reflexivity.
Qed.


End Extraction.

Lemma extract_in_order_aux (E : Env) (args : Args) (doc : Doc E)
    (found : str -> list (item (Node E))) (exprs : list str) (w : world) :
  check_existence args = false ->
  (forall e, In e exprs -> env_xpath E doc e = inr (found e)) ->
  extract E args doc exprs w =
  (Ret (flat_map (fun e => flat_map (contribution E args) (found e)) exprs),
   World (out w) (log w ++ map EvXPath exprs)).
Proof.
  intros Hx Hall. unfold extract.
  now rewrite (extract_from_all E args doc found).
Qed.

Section Returns.

Variable E : Env.

Lemma extract_from_returns (args : Args) (doc : Doc E) :
  forall exprs results w rs w',
  extract_from E args doc exprs results w = (Ret rs, w') ->
  out w' = out w /\ log w' = log w ++ map EvXPath exprs.
Proof.
  induction exprs as [|e es IH]; intros results w rs w'; simpl.
  - unfold ret. intros [= _ <-]. now rewrite app_nil_r.
  - unfold bind, call, emit, bind. simpl.
    destruct (env_xpath E doc e) as [x|els]; simpl; [discriminate|].
    destruct (check_existence args); simpl; [discriminate|].
    intros H. apply IH in H as [H1 H2]. simpl in *.
    split; [exact H1|]. now rewrite H2, <- app_assoc.
Qed.

End Returns.

(** C3. In existence-check mode, for every document and every non-empty
    list of expressions, extraction ends at the first expression: the
    process leaves with status 0 when that expression has a match and with
    status 1 otherwise (an evaluation that raises ends the process with
    status 1 as well), only that expression is evaluated, whatever the
    later ones would match, and nothing is written. *)
Theorem existence_check_stops_at_first (E : Env) (args : Args)
    (doc : Doc E) (e : str) (es : list str) (w : world) :
  check_existence args = true ->
  let r := extract E args doc (e :: es) w in
  fst r = match env_xpath E doc e with
          | inr [] => Exit (Code 1)
          | inr (_ :: _) => Exit (Code 0)
          | inl x => Raise x
          end /\
  exit_code (fst r) = match env_xpath E doc e with
                      | inr (_ :: _) => 0
                      | _ => 1
                      end /\
  out (snd r) = out w /\
  log (snd r) = log w ++ [EvXPath e].
Proof.
  intros Hx. unfold extract. simpl. unfold bind, call, emit, bind. simpl.
  destruct (env_xpath E doc e) as [x|[|el els]]; simpl;
    rewrite ?Hx; simpl; repeat split; reflexivity.
Qed.

Lemma existence_check_stops_at_first_witness :
  let E := Sample.env sample_x Sample.hello_html Sample.links_doc in
  let r := extract E sample_x Sample.links_doc
             [of_string "//table"; of_string "//a"] world0 in
  env_xpath E Sample.links_doc (of_string "//a") <> inr [] /\
  fst r = Exit (Code 1) /\ out (snd r) = [] /\
  log (snd r) = [EvXPath (of_string "//table")].
Proof.
  split; [vm_compute; discriminate|].
  pose proof (existence_check_stops_at_first
                (Sample.env sample_x Sample.hello_html Sample.links_doc)
                sample_x Sample.links_doc (of_string "//table")
                [of_string "//a"] world0 eq_refl) as H.
  cbv zeta in H. destruct H as (H1 & _ & H3 & H4).
  split; [exact H1|split; [exact H3|exact H4]].
Defined.

Lemma render_attribute (E : Env) (args : Args) (n : Node E) :
  text args = false -> argument args <> [] ->
  render E args (INode n) = env_get E n (argument args).
Proof.
  intros Ht Ha. unfold render. rewrite Ht.
  destruct (argument args); [congruence|reflexivity].
Qed.

(** C5. In text mode, once every expression has been evaluated and the
    extraction has returned its results, the program joins them with
    newlines, normalises the joined text once, and keeps that single text
    as the only result, or no result when it is empty: it writes at most
    one block, never the blocks of the expressions one by one. *)
Theorem text_mode_single_result (E : Env) (args : Args) (doc : Doc E)
    (exprs : list str) (results : list str) (w w' : world) :
  text args = true ->
  extract E args doc exprs w = (Ret results, w') ->
  log w' = log w ++ map EvXPath exprs /\
  finalize args results = text_block results /\
  length (finalize args results) <= 1 /\
  report E args doc exprs w =
  (Ret tt,
   World (out w ++ map (fun t => t ++ [NL]) (text_block results))
         (log w ++ map EvXPath exprs)).
Proof.
  intros Ht He.
  destruct (extract_from_returns E args doc exprs [] w results w' He)
    as [Ho Hl].
  assert (Hf : finalize args results = text_block results).
  { unfold finalize, text_block. rewrite Ht.
    destruct results as [|r rs]; [reflexivity|].
    cbn [is_empty negb andb].
    destruct (clean_text (join_nl (r :: rs))); reflexivity. }
  split; [exact Hl|]. split; [exact Hf|]. split.
  - rewrite Hf. unfold text_block.
    destruct (clean_text (join_nl results)); simpl; lia.
  - unfold report, bind. rewrite He, output_writes, Ht, andb_false_r.
    rewrite Hf, Ho, Hl. reflexivity.
Qed.

Lemma text_mode_single_result_witness :
  let E := Sample.env sample_text_two Sample.hello_html Sample.hello_doc in
  extract E sample_text_two Sample.hello_doc
          [of_string "//script"; of_string "//p"] world0 =
    (Ret [of_string "x"; of_string "Hello world"],
     World [] [EvXPath (of_string "//script"); EvXPath (of_string "//p")]) /\
  report E sample_text_two Sample.hello_doc
         [of_string "//script"; of_string "//p"] world0 =
    (Ret tt,
     World [of_string "x" ++ [NL] ++ of_string "Hello world" ++ [NL]]
           [EvXPath (of_string "//script"); EvXPath (of_string "//p")]).
Proof.
  cbv zeta. split; [vm_compute; reflexivity|].
  exact (proj2 (proj2 (proj2 (text_mode_single_result
           (Sample.env sample_text_two Sample.hello_html Sample.hello_doc)
           sample_text_two Sample.hello_doc
           [of_string "//script"; of_string "//p"]
           [of_string "x"; of_string "Hello world"] world0
           (World [] [EvXPath (of_string "//script");
                      EvXPath (of_string "//p")])
           eq_refl eq_refl)))).
Defined.

(** C6. In attribute mode, over expressions that match element nodes,
    the result set holds, in order, the value of the requested attribute
    of every matched node that has it, stripped of leading and trailing
    whitespace, and nothing for a matched node that lacks it (no empty
    entry): each pass of the loop appends the stripped value or appends
    nothing. *)
Theorem attribute_mode_missing_attribute (E : Env) (args : Args)
    (doc : Doc E) (found : str -> list (Node E)) (exprs : list str)
    (w : world) :
  text args = false -> argument args <> [] ->
  check_existence args = false ->
  (forall e, In e exprs -> env_xpath E doc e = inr (map INode (found e))) ->
  (forall results n,
     collect_one E args results (INode n) =
     results ++ attribute_entry E (argument args) n) /\
  extract E args doc exprs w =
  (Ret (flat_map
          (fun e => flat_map (attribute_entry E (argument args)) (found e))
          exprs),
   World (out w) (log w ++ map EvXPath exprs)).
Proof.
  intros Ht Ha Hx Hall. split.
  - intros results n. unfold collect_one, attribute_entry.
    rewrite render_attribute by assumption.
    destruct (env_get E n (argument args)); [reflexivity|].
    now rewrite app_nil_r.
  - rewrite (extract_in_order_aux E args doc (fun e => map INode (found e))
               exprs w Hx Hall).
    f_equal. f_equal. apply flat_map_ext. intros e.
    induction (found e) as [|n ns IH]; [reflexivity|].
    simpl. rewrite IH. f_equal.
    unfold contribution, attribute_entry.
    now rewrite render_attribute by assumption.
Qed.

Lemma attribute_mode_missing_attribute_witness :
  extract (Sample.env sample_href Sample.hello_html padded_doc)
          sample_href padded_doc [of_string "//a"] world0 =
  (Ret [of_string "x"], World [] [EvXPath (of_string "//a")]).
Proof.
  refine (proj2 (attribute_mode_missing_attribute
            (Sample.env sample_href Sample.hello_html padded_doc)
            sample_href padded_doc
            (fun e => Sample.elements_named (skipn 2 e) padded_doc)
            [of_string "//a"] world0 eq_refl _ eq_refl _)).
  - discriminate.
  - intros e [<-|[]]. reflexivity.
Defined.

(** C8. Whenever the command-line tokens, joined by spaces, contain
    [-eb], the program leaves with the advice to use [-be] and a non-zero
    status, before the command line is parsed, any input is read or any
    expression is evaluated: the world is unchanged. *)
Theorem eb_guard_refuses (E : Env) (argv : list str) (w : world) :
  contains (of_string "-eb") (join [SP] argv) = true ->
  main E argv w = (Exit (Message eb_advice), w) /\
  exit_code (fst (main E argv w)) = 1.
Proof.
  intros H. unfold main. rewrite H. split; reflexivity.
Qed.

(** C10, amended. With existence checking off, when every expression
    has no match the invocation succeeds (status 0) and writes no result
    line; standard output stays empty unless [-b] is given without [-t],
    in which case the opening and closing lines of the envelope are
    written. *)
Theorem no_match_is_success (E : Env) (args : Args) (doc : Doc E)
    (exprs : list str) (w : world) :
  check_existence args = false ->
  (forall e, In e exprs -> env_xpath E doc e = inr []) ->
  report E args doc exprs w =
  (Ret tt,
   World (out w ++ (if body args && negb (text args)
                    then [body_open; body_close] else []))
         (log w ++ map EvXPath exprs)).
Proof.
  intros Hx Hall. unfold report, extract, bind.
  rewrite extract_from_no_match by assumption.
  rewrite finalize_nil. unfold output.
  destruct (body args && negb (text args)); simpl.
  - unfold bind, write, ret. simpl. now rewrite <- app_assoc.
  - unfold ret. now rewrite app_nil_r.
Qed.

Lemma eb_guard_refuses_witness :
  main (Sample.env sample_href Sample.hello_html Sample.links_doc)
       [of_string "scrape"; of_string "-eb"; of_string "//a"] world0
  = (Exit (Message eb_advice), world0).
Proof.
  exact (proj1 (eb_guard_refuses
                  (Sample.env sample_href Sample.hello_html Sample.links_doc)
                  [of_string "scrape"; of_string "-eb"; of_string "//a"]
                  world0 eq_refl)).
Defined.

Lemma no_match_is_success_witness :
  report (Sample.env sample_body Sample.hello_html Sample.hello_doc)
         sample_body Sample.hello_doc [of_string "//a"] world0 =
  (Ret tt, World [body_open; body_close] [EvXPath (of_string "//a")]).
Proof.
  apply (no_match_is_success
           (Sample.env sample_body Sample.hello_html Sample.hello_doc)
           sample_body Sample.hello_doc [of_string "//a"] world0 eq_refl).
  intros e [<-|[]]. reflexivity.
Defined.

(** With [-b] and no match the envelope is written: standard output is
    not empty although every expression has no match. *)
Lemma no_match_with_body_prints :
  let E := Sample.env sample_body Sample.hello_html Sample.hello_doc in
  let r := main E [of_string "scrape"; of_string "-b"; of_string "-e";
                   of_string "//a"] world0 in
  check_existence sample_body = false /\
  (forall e, In e (expression sample_body) ->
             env_xpath E Sample.hello_doc e = inr []) /\
  fst r = Ret tt /\
  out (snd r) = [body_open; body_close] /\
  out (snd r) <> [].
Proof.
  cbv zeta. split; [reflexivity|]. split.
  - intros e [<-|[]]. reflexivity.
  - split; [vm_compute; reflexivity|].
    split; [vm_compute; reflexivity|vm_compute; discriminate].
Qed.

(** C9. In attribute mode a matched node whose attribute is present
    with the empty string as value adds one empty entry to the results,
    which is printed as an empty line; a node without the attribute adds
    nothing and nothing is printed. *)
Theorem empty_attribute_value_is_an_entry (E : Env) (args : Args)
    (doc : Doc E) (e : str) (n : Node E) (w : world) :
  text args = false -> argument args <> [] ->
  check_existence args = false -> body args = false ->
  env_xpath E doc e = inr [INode n] ->
  (env_get E n (argument args) = Some [] ->
     extract E args doc [e] w =
       (Ret [[]], World (out w) (log w ++ [EvXPath e])) /\
     report E args doc [e] w =
       (Ret tt, World (out w ++ [[NL]]) (log w ++ [EvXPath e]))) /\
  (env_get E n (argument args) = None ->
     extract E args doc [e] w =
       (Ret [], World (out w) (log w ++ [EvXPath e])) /\
     report E args doc [e] w =
       (Ret tt, World (out w) (log w ++ [EvXPath e]))).
Proof.
  intros Ht Ha Hx Hb He.
  assert (Hext : extract E args doc [e] w =
                 (Ret (collect_one E args [] (INode n)),
                  World (out w) (log w ++ [EvXPath e]))).
  { unfold extract. simpl. unfold bind, call, emit, bind. simpl.
    rewrite He, Hx. reflexivity. }
  unfold collect_one in Hext. rewrite render_attribute in Hext by assumption.
  unfold report, bind. rewrite Hext.
  unfold finalize, output. rewrite Ht, Hb. simpl.
  split; intros Hg; rewrite Hg; simpl.
  - split; [reflexivity|]. unfold bind, write, ret. simpl. reflexivity.
  - split; [reflexivity|]. unfold ret. reflexivity.
Qed.

Lemma empty_attribute_value_is_an_entry_witness :
  report (Sample.env sample_href Sample.hello_html empty_href_doc)
         sample_href empty_href_doc [of_string "//a"] world0 =
  (Ret tt, World [[NL]] [EvXPath (of_string "//a")]).
Proof.
  refine (proj2 (proj1 (empty_attribute_value_is_an_entry
            (Sample.env sample_href Sample.hello_html empty_href_doc)
            sample_href empty_href_doc (of_string "//a") empty_href_link
            world0 eq_refl _ eq_refl eq_refl eq_refl) eq_refl)).
  discriminate.
Defined.

Section Phases.
Variable E : Env.




End Phases.



(** The failures the handler names are discarded: loading goes on with
    the original bytes. *)
Lemma declared_charset_failure_handled (E : Env) (inp : bytes)
    (charset : str) (e : exn) (w : world) :
  detect_charset inp = Some charset -> charset <> [] ->
  env_recode E charset inp = inl e ->
  caught_by [UnicodeDecodeError; LookupError] e = true ->
  apply_charset E inp w =
  (Ret inp, World (out w) (log w ++ [EvRecode charset])).
Proof.
  intros Hd Hne Hr Hc. unfold apply_charset. rewrite Hd.
  destruct charset as [|c cs]; [congruence|]. cbn [is_empty negb].
  unfold try_except, call, bind, emit. rewrite Hr. unfold raise.
  rewrite Hc. reflexivity.
Qed.

(** C7. The declared-charset step can end the invocation: when the
    codec named by the declaration raises an exception that is neither a
    [UnicodeDecodeError] nor a [LookupError] (nor one the parse handler
    names), loading does not go on with the original bytes; the exception
    leaves [load] and the process ends with status 1, having written
    nothing. *)
Theorem declared_charset_failure_escapes (E : Env) (args : Args)
    (inp : bytes) (charset : str) (e : exn) (w : world) :
  detect_charset inp = Some charset -> charset <> [] ->
  env_recode E charset inp = inl e ->
  caught_by [UnicodeDecodeError; LookupError] e = false ->
  caught_by [XMLSyntaxError; UnicodeDecodeError] e = false ->
  load E args inp w =
    (Raise e, World (out w) (log w ++ [EvRecode charset])) /\
  forall exprs,
    exit_code (fst (process E (args, inp, exprs) w)) = 1 /\
    out (snd (process E (args, inp, exprs) w)) = out w.
Proof.
  intros Hd Hne Hr Hc1 Hc2.
  assert (Hload : load E args inp w =
                  (Raise e, World (out w) (log w ++ [EvRecode charset]))).
  { unfold load, try_except at 1, bind at 1, apply_charset. rewrite Hd.
    destruct charset as [|c cs]; [congruence|]. cbn [is_empty negb].
    unfold try_except at 1, call, bind at 1, emit. rewrite Hr.
    unfold raise. rewrite Hc1, Hc2. reflexivity. }
  split; [exact Hload|]. intros exprs. unfold process, bind.
  rewrite Hload. split; reflexivity.
Qed.

Lemma declared_charset_failure_escapes_witness :
  load (Sample.env sample_text undefined_html undefined_doc)
       sample_text undefined_html world0 =
  (Raise (Exn UnicodeError (of_string "undefined encoding")),
   World [] [EvRecode (of_string "undefined")]).
Proof.
  refine (proj1 (declared_charset_failure_escapes
            (Sample.env sample_text undefined_html undefined_doc)
            sample_text undefined_html (of_string "undefined")
            (Exn UnicodeError (of_string "undefined encoding")) world0
            _ _ eq_refl eq_refl eq_refl)).
  - vm_compute. reflexivity.
  - discriminate.
Defined.

Lemma undefined_charset_is_fatal :
  main (Sample.env sample_text undefined_html undefined_doc)
       [of_string "scrape"; of_string "-t"] world0 =
  (Raise (Exn UnicodeError (of_string "undefined encoding")),
   World [] [EvParseArgs; EvReadStdin; EvRecode (of_string "undefined")]).
Proof. vm_compute. reflexivity. Qed.

(** * Further properties *)

(** ** The normalised text *)

(** *** What clean_text keeps and what it removes *)

Lemma allws_visible s : allws s = true <-> visible s = [].
Proof.
  unfold allws, visible. induction s as [|c s IH]; simpl; [tauto|].
  destruct (isspace c); simpl; [exact IH|]. split; discriminate.
Qed.

Lemma visible_app a b : visible (a ++ b) = visible a ++ visible b.
Proof. apply filter_app. Qed.

Lemma visible_lstrip s : visible (lstrip s) = visible s.
Proof.
  induction s as [|c s IH]; simpl; [reflexivity|].
  destruct (isspace c) eqn:E; simpl; [exact IH|now rewrite E].
Qed.

Lemma visible_rstrip : forall s, visible (rstrip s) = visible s.
Proof.
  induction s as [|c s IH]; [reflexivity|].
  rewrite rstrip_cons. destruct (rstrip s) as [|x l] eqn:E.
  - simpl in *. rewrite <- IH.
    destruct (isspace c) eqn:Ec; simpl; now rewrite ?Ec.
  - rewrite <- E in *. simpl. now rewrite IH.
Qed.

Lemma visible_strip s : visible (strip s) = visible s.
Proof. unfold strip. now rewrite visible_rstrip, visible_lstrip. Qed.

Lemma visible_join_strip : forall ls,
  visible (join_nl (map strip ls)) = visible (join_nl ls).
Proof.
  unfold join_nl. induction ls as [|l ls IH]; [reflexivity|].
  destruct ls as [|l2 ls]; simpl map.
  - simpl. apply visible_strip.
  - rewrite !join_cons2, !visible_app, visible_strip. f_equal. f_equal.
    exact IH.
Qed.

Lemma visible_strip_lines s : visible (strip_lines s) = visible s.
Proof.
  unfold strip_lines. rewrite visible_join_strip. now rewrite join_split.
Qed.

Lemma rep_prefix_all (q p : cp -> bool) (K : str -> option (list nat)) :
  (forall c, p c = true -> q c = true) ->
  (forall s r, K s = Some r -> forallb q (firstn (list_sum r) s) = true) ->
  forall s lo hi k r, rep p K s lo hi = Some (k, r) ->
  forallb q (firstn (k + list_sum r) s) = true.
Proof.
  intros Hp HK. induction s as [|c s IH]; intros lo hi k r.
  - simpl. destruct lo; [|discriminate].
    destruct (K []) eqn:E; [|discriminate]. intros [= <- <-].
    now rewrite firstn_nil.
  - assert (Hstop : match lo with
                    | 0 => option_map (pair 0) (K (c :: s))
                    | S _ => None
                    end = Some (k, r) ->
            forallb q (firstn (k + list_sum r) (c :: s)) = true).
    { destruct lo; [|discriminate].
      destruct (K (c :: s)) eqn:E; [|discriminate]. intros [= <- <-].
      now apply HK. }
    simpl rep. destruct (p c) eqn:Ec; [|exact Hstop].
    destruct (more hi); [|exact Hstop]. simpl andb. cbv iota.
    destruct (rep p K s (pred lo) (dec hi)) as [[k' r']|] eqn:E; [|exact Hstop].
    intros [= <- <-]. simpl. rewrite (Hp _ Ec). simpl. eapply IH. exact E.
Qed.

Lemma match_here_prefix_all (q : cp -> bool) pat :
  (forall a c, In a pat -> atom_test a c = true -> q c = true) ->
  forall s r, match_here pat s = Some r ->
  forallb q (firstn (list_sum r) s) = true.
Proof.
  induction pat as [|a pat IH]; intros Hq s r.
  - intros [= <-]. reflexivity.
  - assert (IH' := IH (fun a c Ha => Hq a c (or_intror Ha))).
    destruct a as [p|p lo hi].
    + destruct s as [|c s]; [discriminate|]. simpl.
      destruct (p c) eqn:Ec; [|discriminate].
      destruct (match_here pat s) eqn:E; [|discriminate]. intros [= <-].
      simpl. rewrite (Hq (One p) c (or_introl eq_refl) Ec). simpl.
      now apply IH'.
    + simpl.
      destruct (rep p (match_here pat) s lo hi) as [[k r']|] eqn:E;
        [|discriminate].
      intros [= <-]. simpl.
      eapply (rep_prefix_all q p); [|exact IH'|exact E].
      intros c. apply (Hq (Rep p lo hi) c (or_introl eq_refl)).
Qed.

Lemma visible_sub pat repl :
  (forall a c, In a pat -> atom_test a c = true -> isspace c = true) ->
  allws repl = true ->
  forall n s, length s <= n -> visible (sub pat repl s) = visible s.
Proof.
  intros Hpat Hrepl. apply allws_visible in Hrepl.
  induction n as [|n IH]; intros s Hn.
  - destruct s; [|simpl in Hn; lia]. unfold sub. simpl.
    destruct (match_len pat []) as [[|m]|]; rewrite ?app_nil_r; trivial.
  - destruct s as [|c s].
    + unfold sub. simpl.
      destruct (match_len pat []) as [[|m]|]; rewrite ?app_nil_r; trivial.
    + rewrite sub_cons. simpl in Hn.
      destruct (match_len pat (c :: s)) as [[|m]|] eqn:E.
      * rewrite visible_app, Hrepl. simpl.
        rewrite IH by lia. reflexivity.
      * rewrite visible_app, Hrepl, IH
          by (pose proof (skipn_length_le s m); lia).
        unfold match_len in E.
        destruct (match_here pat (c :: s)) as [r|] eqn:Er; [|discriminate].
        injection E as E.
        pose proof (match_here_prefix_all isspace pat Hpat _ _ Er) as Hall.
        rewrite E in Hall. apply allws_visible in Hall.
        transitivity (visible (firstn (S m) (c :: s) ++ skipn (S m) (c :: s)));
          [|now rewrite firstn_skipn].
        rewrite visible_app, Hall. reflexivity.
      * simpl. now rewrite IH by lia.
Qed.

Lemma clean_text_visible (s : str) :
  visible (clean_text s) = visible s.
Proof.
  unfold clean_text.
  rewrite visible_strip, visible_strip_lines.
  rewrite (visible_sub re_blank_lines [NL; NL]) with (n := length
    (sub re_newlines3 [NL; NL] (sub re_spaces [SP] s))); trivial.
  2:{ intros a c [<-|[<-|[<-|[<-|[<-|[]]]]]]; simpl; intros H;
      trivial; now apply is_nl_space. }
  rewrite (visible_sub re_newlines3 [NL; NL]) with (n := length
    (sub re_spaces [SP] s)); trivial.
  2:{ intros a c [<-|[]]; simpl. apply is_nl_space. }
  rewrite (visible_sub re_spaces [SP]) with (n := length s); trivial.
  intros a c [<-|[]]; simpl. apply is_sp_space.
Qed.

(** X2. [clean_text] only adds and removes whitespace: the characters
    that are not whitespace are the same, in the same order, before and
    after. *)
Theorem clean_text_keeps_visible (s : str) :
  visible (clean_text s) = visible s.
Proof. apply clean_text_visible. Qed.

(** X3. [clean_text] returns the empty string exactly for the texts made
    of whitespace only (the empty text included). *)
Theorem clean_text_empty_iff (s : str) :
  clean_text s = [] <-> allws s = true.
Proof.
  rewrite allws_visible, <- clean_text_visible. split.
  - now intros ->.
  - intros H. apply allws_visible in H.
    rewrite <- (normal_ends _ (clean_text_normal s)).
    unfold strip. rewrite <- allws_lstrip in H.
    destruct (lstrip (clean_text s)) as [|c l] eqn:E; [reflexivity|].
    exfalso. simpl in H. apply andb_prop in H as [Hc _].
    assert (Hl : lstrip (c :: l) = c :: l) by (rewrite <- E; apply lstrip_lstrip).
    apply lstrip_fix_head in Hl. congruence.
Qed.

(** *** The shape of the output *)

Lemma nodbl_no_infix : forall t b, nodbl b t = true ->
  ~ has_infix [SP; SP] t.
Proof.
  induction t as [|x t IH]; intros b H (a & q & E).
  - destruct a; discriminate.
  - destruct a as [|y a]; simpl in E.
    + injection E as -> ->. simpl in H. rewrite andb_false_r in H.
      discriminate.
    + injection E as -> ->. simpl in H. apply andb_prop in H as [_ H].
      apply (IH _ H). now exists a, q.
Qed.

Lemma run_ok_no_infix : forall t c, run_ok c t = true ->
  ~ has_infix [NL; NL; NL] t.
Proof.
  induction t as [|x t IH]; intros c H (a & q & E).
  - destruct a; discriminate.
  - destruct a as [|y a]; simpl in E.
    + injection E as -> ->.
      destruct c as [|[|c]]; simpl in H; discriminate.
    + injection E as -> ->. simpl in H.
      destruct (is_nl y).
      * apply andb_prop in H as [_ H]. apply (IH _ H). now exists a, q.
      * destruct (isspace y); apply (IH _ H); now exists a, q.
Qed.

(** X1. The text [clean_text] returns never holds two adjacent spaces
    nor three adjacent newlines (at most one empty line in a row), each of
    its lines is free of leading and trailing whitespace, and so is the
    text as a whole. *)
Theorem clean_text_shape (s : str) :
  ~ has_infix [SP; SP] (clean_text s) /\
  ~ has_infix [NL; NL; NL] (clean_text s) /\
  Forall (fun l => strip l = l) (split_nl (clean_text s)) /\
  strip (clean_text s) = clean_text s.
Proof.
  destruct (clean_text_normal s) as [H1 H2 H3 H4].
  split; [eapply nodbl_no_infix; exact H1|].
  split; [eapply run_ok_no_infix; exact H2|].
  split; [|exact H4].
  apply lines_ok_split in H3.
  destruct (split_nl (clean_text s)) as [|l ls]; [contradiction|].
  destruct H3 as [[Ha Hb] H3]. constructor; [now apply strip_fix|exact H3].
Qed.

(** ** The guard and the charset declaration *)

(** *** Substring tests *)

Lemma starts_with_iff x : forall s, starts_with x s = true <-> has_prefix x s.
Proof.
  unfold has_prefix. induction x as [|a x IH]; intros s; simpl.
  - split; [intros _; now exists s|reflexivity].
  - destruct s as [|b s].
    + split; [discriminate|]. intros (q & E). discriminate.
    + rewrite andb_true_iff, N.eqb_eq, IH. split.
      * intros [-> (q & ->)]. now exists q.
      * intros (q & E). injection E as -> ->. split; [reflexivity|now exists q].
Qed.

Lemma contains_iff x : forall s, contains x s = true <-> has_infix x s.
Proof.
  unfold has_infix. induction s as [|c s IH]; simpl.
  - rewrite orb_false_r, starts_with_iff. split.
    + intros (q & E). now exists [], q.
    + intros (a & q & E). destruct a; [|discriminate]. now exists q.
  - rewrite orb_true_iff, starts_with_iff, IH. split.
    + intros [(q & E)|(a & q & E)].
      * now exists [], q.
      * exists (c :: a), q. simpl. now rewrite E.
    + intros (a & q & E). destruct a as [|y a].
      * left. now exists q.
      * right. injection E as -> ->. now exists a, q.
Qed.

Lemma infix_across (x : str) (c : cp) (a b : str) :
  ~ In c x -> x <> [] ->
  has_infix x (a ++ c :: b) <-> has_infix x a \/ has_infix x b.
Proof.
  intros Hc Hx. split.
  - intros (p & q & E). apply app_eq_app in E as (l & [[-> E]|[-> E]]).
    + apply app_eq_app in E as (l2 & [[-> E]|[-> E]]).
      * destruct l2 as [|y l2].
        -- left. exists p, []. now rewrite !app_nil_r.
        -- injection E as -> _. exfalso. apply Hc.
           apply in_or_app. right. now left.
      * left. now exists p, l2.
    + destruct l as [|y l].
      * simpl in E. destruct x as [|y x]; [congruence|].
        injection E as -> _. exfalso. apply Hc. now left.
      * injection E as -> ->. right. now exists l, q.
  - intros [(p & q & ->)|(p & q & ->)].
    + exists p, (q ++ c :: b). now rewrite <- !app_assoc.
    + exists (a ++ c :: p), q. rewrite <- app_assoc. reflexivity.
Qed.

Lemma infix_join (x : str) (c : cp) : ~ In c x -> x <> [] ->
  forall ts, has_infix x (join [c] ts) <-> exists t, In t ts /\ has_infix x t.
Proof.
  intros Hc Hx. induction ts as [|t ts IH].
  - simpl. split.
    + intros (a & q & E). destruct a; [|discriminate].
      destruct x; [congruence|discriminate].
    + intros (t & [] & _).
  - destruct ts as [|t2 ts].
    + simpl. split; [intros H; exists t; auto|].
      intros (t' & [<-|[]] & H). exact H.
    + rewrite join_cons2. simpl app. rewrite infix_across by assumption.
      rewrite IH. split.
      * intros [H|(t' & Hin & H)]; [exists t; simpl; auto|].
        exists t'. split; [now right|exact H].
      * intros (t' & [<-|Hin] & H); [now left|right]. now exists t'.
Qed.

(** X4. The [-eb] guard looks at every token of the command line, the
    program name, file names and expressions included: it fires as soon
    as one token contains [-eb], and when no token does the program goes
    on to parse the command line ([-e b] as two tokens does not fire
    it). *)
Theorem eb_guard_fires_on_any_token (E : Env) (argv : list str) (w : world) :
  ((exists t, In t argv /\ has_infix (of_string "-eb") t) ->
   main E argv w = (Exit (Message eb_advice), w)) /\
  ((forall t, In t argv -> ~ has_infix (of_string "-eb") t) ->
   main E argv w = (job <- prepare E argv ;; process E job) w).
Proof.
  assert (H : contains (of_string "-eb") (join [SP] argv) = true <->
              exists t, In t argv /\ has_infix (of_string "-eb") t).
  { rewrite contains_iff. apply infix_join; [|discriminate].
    intros [H|[H|[H|[]]]]; discriminate. }
  unfold main. split.
  - intros Ht. apply H in Ht. now rewrite Ht.
  - intros Hno.
    destruct (contains (of_string "-eb") (join [SP] argv)) eqn:Ec; [|reflexivity].
    exfalso. destruct H as [H _]. destruct (H eq_refl) as (t & Hin & Ht).
    exact (Hno t Hin Ht).
Qed.

Lemma eb_guard_fires_on_any_token_witness :
  main (Sample.env sample_href Sample.hello_html Sample.links_doc)
       ebook_argv world0 = (Exit (Message eb_advice), world0).
Proof.
  refine (proj1 (eb_guard_fires_on_any_token
            (Sample.env sample_href Sample.hello_html Sample.links_doc)
            ebook_argv world0) _).
  exists (of_string "my-ebook.html"). split; [right; now left|].
  exists (of_string "my"), (of_string "ook.html"). reflexivity.
Defined.

(** *** The charset declaration *)

Lemma run_prefix_all p : forall s, forallb p (firstn (run p s) s) = true.
Proof.
  induction s as [|c s IH]; simpl; [reflexivity|].
  destruct (p c) eqn:E; simpl; [now rewrite E|reflexivity].
Qed.

Lemma run_le_length p : forall s, run p s <= length s.
Proof.
  induction s as [|c s IH]; simpl; [lia|]. destruct (p c); simpl; lia.
Qed.

Lemma rep_continues p (K : str -> option (list nat)) : forall s lo hi k r,
  rep p K s lo hi = Some (k, r) -> k <= length s /\ K (skipn k s) = Some r.
Proof.
  induction s as [|c s IH]; intros lo hi k r.
  - simpl. destruct lo; [|discriminate].
    destruct (K []) eqn:E; [|discriminate]. intros [= <- <-]. now split.
  - assert (Hstop : match lo with
                    | 0 => option_map (pair 0) (K (c :: s))
                    | S _ => None
                    end = Some (k, r) ->
            k <= length (c :: s) /\ K (skipn k (c :: s)) = Some r).
    { destruct lo; [|discriminate].
      destruct (K (c :: s)) eqn:E; [|discriminate]. intros [= <- <-].
      split; [simpl; lia|exact E]. }
    simpl rep. destruct (p c && more hi); [|exact Hstop].
    destruct (rep p K s (pred lo) (dec hi)) as [[k' r']|] eqn:E; [|exact Hstop].
    intros [= <- <-]. apply IH in E as [E1 E2]. split; [simpl; lia|exact E2].
Qed.

Lemma match_here_last_rep p lo : forall pre s segs,
  match_here (pre ++ [Rep p lo None]) s = Some segs ->
  exists front g, segs = front ++ [g] /\ lo <= g /\
    forallb p (firstn g (skipn (list_sum front) s)) = true /\
    list_sum front + g <= length s.
Proof.
  induction pre as [|a pre IH]; intros s segs.
  - simpl app. rewrite match_here_Rep, rep_last.
    destruct (lo <=? run p s) eqn:E; [|discriminate]. intros [= <-].
    exists [], (run p s). simpl. apply Nat.leb_le in E.
    repeat split; trivial; [apply run_prefix_all|apply run_le_length].
  - simpl app. destruct a as [q|q lo' hi'].
    + destruct s as [|c s]; [discriminate|]. rewrite match_here_One.
      destruct (q c); [|discriminate].
      destruct (match_here (pre ++ [Rep p lo None]) s) as [segs'|] eqn:E;
        [|discriminate].
      intros [= <-]. destruct (IH _ _ E) as (front & g & -> & Hg & Hall & Hlen).
      exists (1 :: front), g. simpl. repeat split; trivial. lia.
    + rewrite match_here_Rep.
      destruct (rep q (match_here (pre ++ [Rep p lo None])) s lo' hi')
        as [[k r]|] eqn:E; [|discriminate].
      intros [= <-]. apply rep_continues in E as [Hk E].
      destruct (IH _ _ E) as (front & g & -> & Hg & Hall & Hlen).
      exists (k :: front), g. simpl. rewrite length_skipn in Hlen.
      repeat split; trivial; [|lia].
      rewrite Nat.add_comm, <- skipn_skipn. exact Hall.
Qed.

Lemma search_from_found pat : forall s pos i segs,
  search_from pat pos s = Some (i, segs) ->
  exists k, i = pos + k /\ match_here pat (skipn k s) = Some segs.
Proof.
  induction s as [|c s IH]; intros pos i segs; simpl.
  - destruct (match_here pat []) eqn:E; [|discriminate].
    intros [= <- <-]. exists 0. split; [lia|exact E].
  - destruct (match_here pat (c :: s)) eqn:E.
    + intros [= <- <-]. exists 0. split; [lia|exact E].
    + intros H. apply IH in H as (k & -> & H). exists (S k). split; [lia|exact H].
Qed.

Lemma lower_no_upper s c : In c (lower s) -> between 65%N 90%N c = false.
Proof.
  unfold lower. rewrite in_map_iff. intros (x & <- & _).
  destruct (between 65%N 90%N x) eqn:E; [|exact E].
  unfold between in *. apply andb_prop in E as [E1 E2].
  apply N.leb_le in E1, E2. apply andb_false_iff. right.
  apply N.leb_gt. lia.
Qed.

Lemma forallb_In {A} (f : A -> bool) l x :
  forallb f l = true -> In x l -> f x = true.
Proof. intros H. rewrite forallb_forall in H. apply H. Qed.

Lemma In_firstn {A} (x : A) : forall n l, In x (firstn n l) -> In x l.
Proof.
  induction n as [|n IH]; intros [|y l]; simpl; try tauto.
  intros [->|H]; [now left|right; now apply IH].
Qed.

Lemma In_skipn {A} (x : A) : forall n l, In x (skipn n l) -> In x l.
Proof.
  induction n as [|n IH]; intros [|y l]; simpl; try tauto.
  intros H. right. now apply IH.
Qed.

Lemma detect_charset_chars (html_bytes : bytes) (charset : str) :
  detect_charset html_bytes = Some charset ->
  charset <> [] /\ forallb is_charset_char charset = true.
Proof.
  unfold detect_charset.
  set (head := lower (decode_ascii_ignore (firstn 1024 html_bytes))).
  destruct (search re_meta_charset head) as [[i segs]|] eqn:Es; [|discriminate].
  intros [= <-]. unfold search in Es.
  apply search_from_found in Es as (k & -> & Em).
  change re_meta_charset with
    ((lit "<meta" ++ [plus (not_chr 62%N)] ++ lit "charset=" ++ [opt is_quote])
     ++ [Rep is_word_or_dash 1 None]) in Em.
  apply match_here_last_rep in Em as (front & g & -> & Hg & Hall & Hlen).
  unfold last_group. cbn [fst snd].
  rewrite removelast_last, last_last.
  rewrite Nat.add_comm with (n := 0 + k), <- skipn_skipn. simpl (0 + k).
  rewrite length_skipn in Hlen. split.
  - intros Hnil. apply (f_equal (@length _)) in Hnil.
    rewrite length_firstn, length_skipn, length_skipn in Hnil. simpl in Hnil. lia.
  - apply forallb_forall. intros c Hc.
    pose proof (forallb_In _ _ _ Hall Hc) as Hw.
    assert (Hup : between 65%N 90%N c = false).
    { apply (lower_no_upper (decode_ascii_ignore (firstn 1024 html_bytes))).
      fold head. eapply In_skipn, In_skipn, In_firstn. exact Hc. }
    unfold is_word_or_dash, is_word in Hw. unfold is_charset_char.
    rewrite Hup in Hw. rewrite orb_false_r in Hw. exact Hw.
Qed.

(** X5. A charset name returned by [detect_charset] is never empty and
    holds only digits, lower-case letters, [_] and [-]: the declaration is
    read in lower case, whatever its case in the document. *)
Theorem detect_charset_name (html_bytes : bytes) (charset : str) :
  detect_charset html_bytes = Some charset ->
  charset <> [] /\ forallb is_charset_char charset = true.
Proof. apply detect_charset_chars. Qed.

Lemma detect_charset_name_witness :
  detect_charset
    (Sample.to_bytes "<META http-equiv='Content-Type' content='text/html; CHARSET=ISO-8859-1'>")
    = Some (of_string "iso-8859-1") /\
  of_string "iso-8859-1" <> [] /\
  forallb is_charset_char (of_string "iso-8859-1") = true.
Proof.
  split; [vm_compute; reflexivity|].
  apply (detect_charset_name
           (Sample.to_bytes "<META http-equiv='Content-Type' content='text/html; CHARSET=ISO-8859-1'>")).
  vm_compute. reflexivity.
Defined.

(** ** Input, conversion, loading, extraction and output *)



Section TextMode.

Variable E : Env.

Lemma render_text_mode (args : Args) (el : item (Node E)) :
  text args = true ->
  render E args el = Some (clean_text (raw_text E el)).
Proof.
  intros Ht. unfold render, raw_text. rewrite Ht. now destruct el.
Qed.

Lemma collect_text_mode (args args' : Args) :
  text args = true -> text args' = true ->
  forall els results,
  collect E args els results = collect E args' els results.
Proof.
  intros Ht Ht'. unfold collect.
  induction els as [|el els IH]; intros results; simpl; [reflexivity|].
  unfold collect_one at 2 4. rewrite !render_text_mode by assumption.
  apply IH.
Qed.

Lemma extract_from_text_mode (args args' : Args) (doc : Doc E) :
  text args = true -> text args' = true ->
  check_existence args = check_existence args' ->
  forall exprs results w,
  extract_from E args doc exprs results w =
  extract_from E args' doc exprs results w.
Proof.
  intros Ht Ht' Hx.
  induction exprs as [|e es IH]; intros results w; simpl; [reflexivity|].
  unfold bind, call, emit, bind. simpl.
  destruct (env_xpath E doc e) as [x|els]; simpl; [reflexivity|].
  rewrite <- Hx. destruct (check_existence args); simpl; [reflexivity|].
  rewrite (collect_text_mode args args') by assumption. apply IH.
Qed.

End TextMode.

(** X9. In text mode [-a] and [-b] have no effect: the run is the same
    whatever attribute name and whatever body flag are given. *)
Theorem text_mode_ignores_attribute_and_body (E : Env) (args : Args)
    (doc : Doc E) (exprs : list str) (a : str) (b : bool) (w : world) :
  text args = true ->
  report E (with_attribute_body args a b) doc exprs w =
  report E args doc exprs w.
Proof.
  intros Ht. unfold report, extract, bind.
  rewrite (extract_from_text_mode E (with_attribute_body args a b) args)
    by (trivial).
  destruct (extract_from E args doc exprs [] w) as [[results|st|x] w'];
    trivial.
  rewrite !output_writes. unfold finalize. simpl. rewrite Ht.
  now rewrite !andb_false_r.
Qed.

Lemma text_mode_ignores_attribute_and_body_witness :
  report (Sample.env sample_text Sample.hello_html Sample.links_doc)
         (with_attribute_body sample_text (of_string "href") true)
         Sample.links_doc [of_string "//a"] world0 =
  report (Sample.env sample_text Sample.hello_html Sample.links_doc)
         sample_text Sample.links_doc [of_string "//a"] world0.
Proof.
  exact (text_mode_ignores_attribute_and_body
           (Sample.env sample_text Sample.hello_html Sample.links_doc)
           sample_text Sample.links_doc [of_string "//a"]
           (of_string "href") true world0 eq_refl).
Defined.

(** X10. In text mode one expression with a single match prints the
    normalised text of that match, once, and prints nothing when that
    text is empty: normalising the match and then normalising the joined
    results amounts to normalising once. *)
Theorem text_mode_single_match (E : Env) (args : Args) (doc : Doc E)
    (e : str) (el : item (Node E)) (w : world) :
  text args = true -> check_existence args = false ->
  env_xpath E doc e = inr [el] ->
  report E args doc [e] w =
  (Ret tt,
   World (out w ++ (if is_empty (clean_text (raw_text E el)) then []
                    else [clean_text (raw_text E el) ++ [NL]]))
         (log w ++ [EvXPath e])).
Proof.
  intros Ht Hx He. unfold report, bind.
  rewrite (extract_in_order_aux E args doc (fun _ => [el]) [e] w Hx)
    by (intros e' [<-|[]]; exact He).
  rewrite output_writes. rewrite Ht, andb_false_r. simpl flat_map.
  unfold contribution. rewrite render_text_mode by assumption.
  rewrite app_nil_r.
  pose proof (clean_text_normal (raw_text E el)) as Hn.
  rewrite (normal_ends _ Hn).
  unfold finalize. rewrite Ht.
  change (join_nl ([clean_text (raw_text E el)] ++ []))
    with (clean_text (raw_text E el)).
  rewrite (normal_fixed _ Hn).
  destruct (clean_text (raw_text E el)); reflexivity.
Qed.

Lemma text_mode_single_match_witness :
  report (Sample.env sample_text Sample.hello_html Sample.hello_doc)
         sample_text Sample.hello_doc [of_string "//p"] world0 =
  (Ret tt,
   World [of_string "Hello world" ++ [NL]] [EvXPath (of_string "//p")]).
Proof.
  exact (text_mode_single_match
           (Sample.env sample_text Sample.hello_html Sample.hello_doc)
           sample_text Sample.hello_doc (of_string "//p")
           (INode (Sample.Element (of_string "p") []
                     [Sample.Text (of_string "Hello  world")]))
           world0 eq_refl eq_refl eq_refl).
Defined.

Section Conversion.

Variable E : Env.

Lemma convert_all (translated : str -> str) : forall exprs w,
  (forall e, In e exprs -> is_xpath e = false ->
             env_css_to_xpath E e = inr (translated e)) ->
  map_m (convert_expression E) exprs w =
  (Ret (map (as_xpath translated) exprs),
   World (out w) (log w ++ map EvCssToXPath (css_only exprs))).
Proof.
  induction exprs as [|e es IH]; intros w H; simpl.
  - unfold ret. rewrite app_nil_r. now destruct w.
  - unfold bind at 1. unfold convert_expression at 1, as_xpath at 1.
    destruct (is_xpath e) eqn:Ex; simpl.
    + unfold ret at 1. unfold bind at 1.
      rewrite IH by (intros ? ? ?; apply H; [now right|assumption]). reflexivity.
    + unfold convert_css_to_xpath, try_except_all, call, bind at 1, emit.
      rewrite (H e (or_introl eq_refl) Ex). unfold ret at 1.
      unfold bind at 1. rewrite IH by (intros ? ? ?; apply H; [now right|assumption]).
      simpl. now rewrite <- app_assoc.
Qed.

Lemma convert_stops (translated : str -> str) (css : str) (x : exn)
    (post : list str) : forall pre w,
  (forall e, In e pre -> is_xpath e = false ->
             env_css_to_xpath E e = inr (translated e)) ->
  is_xpath css = false -> env_css_to_xpath E css = inl x ->
  map_m (convert_expression E) (pre ++ css :: post) w =
  (Exit (Code 1),
   World (out w ++ [conversion_error x])
         (log w ++ map EvCssToXPath (css_only pre) ++ [EvCssToXPath css])).
Proof.
  induction pre as [|e es IH]; intros w H Hc Hx; simpl.
  - unfold bind at 1. unfold convert_expression at 1. rewrite Hc.
    unfold convert_css_to_xpath, try_except_all, call, bind at 1, emit.
    rewrite Hx. reflexivity.
  - assert (H' : forall e0, In e0 es -> is_xpath e0 = false ->
                 env_css_to_xpath E e0 = inr (translated e0))
      by (intros e0 Hin He0; apply H; [now right|exact He0]).
    unfold bind at 1. unfold convert_expression at 1.
    destruct (is_xpath e) eqn:Ex; simpl.
    + unfold ret at 1. unfold bind at 1.
      rewrite (IH _ H' Hc Hx). reflexivity.
    + unfold convert_css_to_xpath, try_except_all, call, bind at 1, emit.
      rewrite (H e (or_introl eq_refl) Ex). unfold ret at 1.
      unfold bind at 1. rewrite (IH _ H' Hc Hx).
      simpl. now rewrite <- !app_assoc.
Qed.

End Conversion.

(** X11. When every CSS selector translates, the expressions to evaluate
    are the given ones in the same order, the XPath ones unchanged and the
    CSS ones translated; the translator is called for the CSS selectors
    only, and nothing is written. *)
Theorem to_xpath_translates_css_only (E : Env) (args : Args)
    (translated : str -> str) (w : world) :
  expression args <> [] ->
  (forall e, In e (expression args) -> is_xpath e = false ->
             env_css_to_xpath E e = inr (translated e)) ->
  to_xpath E args w =
  (Ret (map (as_xpath translated) (expression args)),
   World (out w) (log w ++ map EvCssToXPath (css_only (expression args)))).
Proof.
  intros Hne H. unfold to_xpath.
  destruct (expression args) as [|e es] eqn:Ee; [congruence|].
  rewrite andb_false_r. now apply convert_all.
Qed.

Lemma to_xpath_translates_css_only_witness :
  to_xpath (strict_env sample_css Sample.hello_html Sample.hello_doc)
           (Sample.options [of_string "a"; of_string "//p"]) world0 =
  (Ret [of_string "descendant-or-self::a"; of_string "//p"],
   World [] [EvCssToXPath (of_string "a")]).
Proof.
  refine (to_xpath_translates_css_only
            (strict_env sample_css Sample.hello_html Sample.hello_doc)
            (Sample.options [of_string "a"; of_string "//p"])
            (fun css => of_string "descendant-or-self::" ++ css) world0 _ _).
  - discriminate.
  - intros e [<-|[<-|[]]]; [reflexivity|discriminate].
Defined.

(** X12. A CSS selector that does not translate ends the run with status
    1 after the conversion error is printed; the expressions after it are
    not translated. *)
Theorem to_xpath_stops_at_bad_css (E : Env) (args : Args)
    (translated : str -> str) (pre post : list str) (css : str) (x : exn)
    (w : world) :
  expression args = pre ++ css :: post ->
  (forall e, In e pre -> is_xpath e = false ->
             env_css_to_xpath E e = inr (translated e)) ->
  is_xpath css = false -> env_css_to_xpath E css = inl x ->
  to_xpath E args w =
  (Exit (Code 1),
   World (out w ++ [conversion_error x])
         (log w ++ map EvCssToXPath (css_only pre) ++ [EvCssToXPath css])).
Proof.
  intros He H Hc Hx. unfold to_xpath. rewrite He.
  replace (text args && is_empty (pre ++ css :: post)) with false
    by (destruct pre; simpl; now rewrite andb_false_r).
  now apply convert_stops with (translated := translated).
Qed.

Lemma to_xpath_stops_at_bad_css_witness :
  to_xpath (strict_env sample_css Sample.hello_html Sample.hello_doc)
           sample_css world0 =
  (Exit (Code 1),
   World [conversion_error
            (Exn OtherException (of_string "Expected selector"))]
         [EvCssToXPath (of_string "a"); EvCssToXPath (of_string "a >")]).
Proof.
  refine (to_xpath_stops_at_bad_css
            (strict_env sample_css Sample.hello_html Sample.hello_doc)
            sample_css (fun css => of_string "descendant-or-self::" ++ css)
            [of_string "a"; of_string "//p"] [] (of_string "a >")
            (Exn OtherException (of_string "Expected selector")) world0
            eq_refl _ eq_refl eq_refl).
  intros e [<-|[<-|[]]]; [reflexivity|discriminate].
Defined.

Section Preparation.

Variable E : Env.

Lemma read_input_returns (args : Args) (inp : bytes) (w : world) :
  input_result E args = inr inp -> inp <> [] ->
  read_input E args w =
  (Ret inp, World (out w) (log w ++ [input_event args])).
Proof.
  unfold input_result, input_event, read_input.
  destruct (html args) as [|c h]; cbn [is_empty negb].
  - intros -> Hne. unfold try_except_all, bind, call, emit, bind.
    cbn. destruct inp; [congruence|reflexivity].
  - destruct (starts_with (of_string "http://") (c :: h)
              || starts_with (of_string "https://") (c :: h));
      intros -> _; reflexivity.
Qed.

Lemma read_input_empty (args : Args) (w : world) :
  input_result E args = inr [] ->
  (html args = [] /\
   read_input E args w =
   (Exit (Code 1),
    World (out w ++ [empty_input_error args])
          (log w ++ [input_event args]))) \/
  (html args <> [] /\
   read_input E args w =
   (Ret [], World (out w) (log w ++ [input_event args]))).
Proof.
  unfold input_result, input_event, read_input, empty_input_error.
  destruct (html args) as [|c h]; cbn [is_empty negb].
  - intros ->. left. split; reflexivity.
  - right. split; [discriminate|].
    destruct (starts_with (of_string "http://") (c :: h)
              || starts_with (of_string "https://") (c :: h));
      rewrite H; reflexivity.
Qed.

End Preparation.

(** X13. An empty input is refused whatever its source (standard input,
    file or URL): the program prints one error line and leaves with
    status 1 before anything is parsed or evaluated. *)
Theorem empty_input_is_refused (E : Env) (argv : list str) (args : Args) :
  contains (of_string "-eb") (join [SP] argv) = false ->
  env_parse_args E argv = Parsed args ->
  is_empty (expression args) && negb (text args) = false ->
  input_result E args = inr [] ->
  main E argv world0 =
  (Exit (Code 1),
   World [empty_input_error args] [EvParseArgs; input_event args]).
Proof.
  intros Hg Hp Hu Hin. unfold main. rewrite Hg.
  unfold bind at 1. unfold prepare, parse_args. rewrite Hp.
  unfold bind at 1. unfold bind at 1. unfold emit at 1, ret at 1.
  rewrite Hu. unfold bind at 1. unfold ret at 1. unfold bind at 1.
  destruct (read_input_empty E args (World (out world0)
              (log world0 ++ [EvParseArgs])) Hin) as [[Hh ->]|[Hh ->]].
  - reflexivity.
  - unfold bind at 1. cbn [is_empty]. unfold bind at 1, print, write.
    unfold sys_exit, empty_input_error.
    destruct (html args); [congruence|]. reflexivity.
Qed.

Lemma empty_input_is_refused_witness :
  main (Sample.env sample_two [] Sample.hello_doc)
       [of_string "scrape"; of_string "-e"; of_string "//a"] world0 =
  (Exit (Code 1),
   World [of_string "Error: No input received from stdin" ++ [NL]]
         [EvParseArgs; EvReadStdin]).
Proof.
  exact (empty_input_is_refused
           (Sample.env sample_two [] Sample.hello_doc)
           [of_string "scrape"; of_string "-e"; of_string "//a"]
           sample_two eq_refl eq_refl eq_refl eq_refl).
Defined.

(** X14. Without [-e] and without [-t] the program prints the help text
    and leaves with the usage message (status 1); no input is read. *)
Theorem missing_expression_is_refused (E : Env) (argv : list str)
    (args : Args) (w : world) :
  contains (of_string "-eb") (join [SP] argv) = false ->
  env_parse_args E argv = Parsed args ->
  expression args = [] -> text args = false ->
  main E argv w =
  (Exit (Message no_expression_advice),
   World (out w ++ [env_help E]) (log w ++ [EvParseArgs])).
Proof.
  intros Hg Hp He Ht. unfold main. rewrite Hg.
  unfold bind at 1. unfold prepare, parse_args. rewrite Hp.
  unfold bind at 1. unfold bind at 1. unfold emit at 1, ret at 1.
  rewrite He, Ht. reflexivity.
Qed.

Lemma missing_expression_is_refused_witness :
  main (Sample.env sample_none Sample.hello_html Sample.hello_doc)
       [of_string "scrape"] world0 =
  (Exit (Message no_expression_advice),
   World [of_string "usage: scrape [-h] [-e EXPRESSION] [HTML]"]
         [EvParseArgs]).
Proof.
  exact (missing_expression_is_refused
           (Sample.env sample_none Sample.hello_html Sample.hello_doc)
           [of_string "scrape"] sample_none world0
           eq_refl eq_refl eq_refl eq_refl).
Defined.

Section Loading.

Variable E : Env.

Lemma apply_charset_declared (inp : bytes) (charset : str) (w : world) :
  detect_charset inp = Some charset ->
  apply_charset E inp w =
  (match env_recode E charset inp with
   | inr recoded => Ret recoded
   | inl x => if caught_by [UnicodeDecodeError; LookupError] x
              then Ret inp else Raise x
   end,
   World (out w) (log w ++ [EvRecode charset])).
Proof.
  intros Hd. destruct (detect_charset_chars _ _ Hd) as [Hne _].
  unfold apply_charset. rewrite Hd.
  destruct charset as [|c cs]; [congruence|]. cbn [is_empty negb].
  unfold try_except, call, bind, emit.
  destruct (env_recode E (c :: cs) inp) as [x|b]; [|reflexivity].
  unfold raise.
  destruct (caught_by [UnicodeDecodeError; LookupError] x); reflexivity.
Qed.

Lemma load_after_charset (args : Args) (inp b : bytes) (w w1 : world) :
  apply_charset E inp w = (Ret b, w1) ->
  load E args inp w =
  try_except
    (try_except
       (call (EvParse (rawinput args)) (env_fromstring E (rawinput args) b))
       [UnicodeDecodeError]
       (fun _ => call (EvParse (rawinput args))
                      (env_fromstring E (rawinput args) (latin1_to_utf8 b))))
    [XMLSyntaxError; UnicodeDecodeError]
    (fun e => print (of_string "Error parsing HTML: " ++ exn_text e) ;;;
              sys_exit (Code 1)) w1.
Proof.
  intros Ha. unfold load. unfold try_except at 1. unfold bind at 1.
  rewrite Ha. reflexivity.
Qed.

End Loading.

(** X15. With a charset declared, the parser is given the bytes recoded
    from that charset when the codec accepts them, and the original bytes
    when the codec fails with a [UnicodeDecodeError] or a [LookupError];
    the codec is consulted once. *)
Theorem load_with_declared_charset (E : Env) (args : Args) (inp : bytes)
    (charset : str) (doc : Doc E) (w : world) :
  detect_charset inp = Some charset ->
  (forall x, env_recode E charset inp = inl x ->
             caught_by [UnicodeDecodeError; LookupError] x = true) ->
  env_fromstring E (rawinput args)
    (match env_recode E charset inp with
     | inr recoded => recoded
     | inl _ => inp
     end) = inr doc ->
  load E args inp w =
  (Ret doc,
   World (out w) (log w ++ [EvRecode charset; EvParse (rawinput args)])).
Proof.
  intros Hd Hc Hdoc.
  pose proof (apply_charset_declared E inp charset w Hd) as Ha.
  destruct (env_recode E charset inp) as [x|b].
  - rewrite (Hc x eq_refl) in Ha.
    rewrite (load_after_charset E args inp inp w _ Ha).
    unfold try_except, call, bind, emit. rewrite Hdoc. simpl.
    now rewrite <- app_assoc.
  - rewrite (load_after_charset E args inp b w _ Ha).
    unfold try_except, call, bind, emit. rewrite Hdoc. simpl.
    now rewrite <- app_assoc.
Qed.

Lemma load_with_declared_charset_witness :
  load (Sample.env sample_two utf8_html Sample.hello_doc)
       sample_two utf8_html world0 =
    (Ret Sample.hello_doc,
     World [] [EvRecode (of_string "utf-8"); EvParse false]) /\
  load (Sample.env sample_two klingon_html Sample.hello_doc)
       sample_two klingon_html world0 =
    (Ret Sample.hello_doc,
     World [] [EvRecode (of_string "klingon"); EvParse false]).
Proof.
  split.
  - refine (load_with_declared_charset
              (Sample.env sample_two utf8_html Sample.hello_doc)
              sample_two utf8_html (of_string "utf-8") Sample.hello_doc
              world0 _ _ eq_refl).
    + vm_compute. reflexivity.
    + vm_compute. discriminate.
  - refine (load_with_declared_charset
              (Sample.env sample_two klingon_html Sample.hello_doc)
              sample_two klingon_html (of_string "klingon") Sample.hello_doc
              world0 _ _ eq_refl).
    + vm_compute. reflexivity.
    + vm_compute. intros x [= <-]. reflexivity.
Defined.

(** X16. When the parser raises a [UnicodeDecodeError], the bytes it was
    given (recoded ones, if the declared charset applied) are re-encoded
    from Latin-1 and parsed a second and last time: a document is
    returned, a syntax or decoding error of the retry is printed with
    status 1, and any other exception is left uncaught. *)
Theorem load_retries_as_latin1 (E : Env) (args : Args) (inp b : bytes)
    (x : exn) (w w1 : world) :
  apply_charset E inp w = (Ret b, w1) ->
  env_fromstring E (rawinput args) b = inl x ->
  exn_cls x = UnicodeDecodeError ->
  load E args inp w =
  (match env_fromstring E (rawinput args) (latin1_to_utf8 b) with
   | inr doc => Ret doc
   | inl y => if caught_by [XMLSyntaxError; UnicodeDecodeError] y
              then Exit (Code 1) else Raise y
   end,
   World (out w1 ++
          match env_fromstring E (rawinput args) (latin1_to_utf8 b) with
          | inr _ => []
          | inl y => if caught_by [XMLSyntaxError; UnicodeDecodeError] y
                     then [parse_error y] else []
          end)
         (log w1 ++ [EvParse (rawinput args); EvParse (rawinput args)])).
Proof.
  intros Ha Hb Hx. rewrite (load_after_charset E args inp b w w1 Ha).
  assert (Hc : caught_by [UnicodeDecodeError] x = true)
    by (unfold caught_by; rewrite Hx; reflexivity).
  unfold try_except, call, bind, emit. rewrite Hb. unfold raise.
  rewrite Hc.
  destruct (env_fromstring E (rawinput args) (latin1_to_utf8 b)) as [y|doc].
  - unfold raise.
    destruct (caught_by [XMLSyntaxError; UnicodeDecodeError] y);
      cbn [out log]; rewrite <- ?app_assoc, ?app_nil_r; reflexivity.
  - unfold ret. cbn [out log]. rewrite <- app_assoc, app_nil_r. reflexivity.
Qed.

Lemma load_retries_as_latin1_witness :
  load (strict_env sample_two latin1_html Sample.hello_doc)
       sample_two latin1_html world0 =
  (Ret Sample.hello_doc, World [] [EvParse false; EvParse false]).
Proof.
  exact (load_retries_as_latin1
           (strict_env sample_two latin1_html Sample.hello_doc)
           sample_two latin1_html latin1_html
           (Exn UnicodeDecodeError (of_string "invalid start byte"))
           world0 world0 eq_refl eq_refl eq_refl).
Defined.

(** X17. A syntax error of the parser is printed as [Error parsing
    HTML: ...] and ends the run with status 1; no expression is
    evaluated. *)
Theorem parse_error_is_reported (E : Env) (args : Args) (inp b : bytes)
    (x : exn) (exprs : list str) (w w1 : world) :
  apply_charset E inp w = (Ret b, w1) ->
  env_fromstring E (rawinput args) b = inl x ->
  exn_cls x = XMLSyntaxError ->
  process E (args, inp, exprs) w =
  (Exit (Code 1),
   World (out w1 ++ [parse_error x]) (log w1 ++ [EvParse (rawinput args)])).
Proof.
  intros Ha Hb Hx. unfold process, bind.
  rewrite (load_after_charset E args inp b w w1 Ha).
  assert (Hc1 : caught_by [UnicodeDecodeError] x = false)
    by (unfold caught_by; rewrite Hx; reflexivity).
  assert (Hc2 : caught_by [XMLSyntaxError; UnicodeDecodeError] x = true)
    by (unfold caught_by; rewrite Hx; reflexivity).
  unfold try_except, call, bind, emit. rewrite Hb. unfold raise.
  rewrite Hc1, Hc2. reflexivity.
Qed.

Lemma parse_error_is_reported_witness :
  process (with_tools (Sample.env sample_two Sample.hello_html
                         Sample.hello_doc)
                      translate_type_selector parse_nothing)
          (sample_two, Sample.hello_html, [of_string "//a"]) world0 =
  (Exit (Code 1),
   World [of_string "Error parsing HTML: Document is empty" ++ [NL]]
         [EvParse false]).
Proof.
  exact (parse_error_is_reported
           (with_tools (Sample.env sample_two Sample.hello_html
                          Sample.hello_doc)
                       translate_type_selector parse_nothing)
           sample_two Sample.hello_html Sample.hello_html
           (Exn XMLSyntaxError (of_string "Document is empty"))
           [of_string "//a"] world0 world0 eq_refl eq_refl eq_refl).
Defined.
